(** * log-it-yeet-it: the entry store, import/export and search of [app.js]

    A shallow embedding of the persistence and search code of [src/app.js]
    (the IndexedDB wrapper, [exportJSON], [importJSON], the log-form submit
    handler, [saveEdit], [deleteEntry], [matchesQuery] and the filtering
    step of [renderSearch]; then [openEdit], [confirmDelete], [entryPills]
    and the handler of the import control), followed by the properties the
    specification states about them and by further properties of the
    code.

    Conventions of the embedding.
    - A JavaScript string is a [string] of 8-bit code units, that is the
      code units U+0000..U+00FF; [toLowerCase] and [trim] are written out
      for that range.
    - A JSON number is an integer [Z]; the code never computes with numbers,
      it only tests them for truthiness, prints them and uses them as keys.
      Printing and keys are exact for the integers a double holds exactly
      and prints in plain decimal, those between -(2^53 - 1) and 2^53 - 1
      ([safe]); a property that prints a number or uses it as a key assumes
      it in that range.
    - A JSON document is identified with the value it denotes, so
      [JSON.parse] inverts [JSON.stringify] by construction.
    - The wall clock, the identifier generator and locale collation belong
      to the browser; they are the fields of the class [Host].
    - Asynchrony is sequential here: every [await] has completed before the
      next statement runs, and a transaction either commits or leaves the
      store as it was. *)

From Stdlib Require Import List Bool Arith ZArith Lia String Ascii.
From Stdlib Require Import Permutation Sorted.
From Stdlib Require Import Numbers.DecimalString.
From Stdlib Require OrdersEx.
Import ListNotations.

Set Warnings "-register-all".
Open Scope string_scope.

(** ** JavaScript strings *)

Module JsString.

(** [String.prototype.toLowerCase] on one code unit: A-Z and the
    upper-case letters of U+00C0..U+00DE (all but the multiplication
    sign U+00D7) move up by 32. *)
Definition lower_unit (c : ascii) : ascii :=
  let n := N_of_ascii c in
  if ((65 <=? n) && (n <=? 90) || (192 <=? n) && (n <=? 222) && negb (n =? 215))%N
  then ascii_of_N (n + 32) else c.

Fixpoint toLowerCase (s : string) : string :=
  match s with
  | EmptyString => EmptyString
  | String c r => String (lower_unit c) (toLowerCase r)
  end.

(** White space and line terminators, as [trim] understands them: TAB, LF,
    VT, FF, CR, SPACE and NO-BREAK SPACE. *)
Definition is_space (c : ascii) : bool :=
  let n := N_of_ascii c in
  ((9 <=? n) && (n <=? 13) || (n =? 32) || (n =? 160))%N.

Fixpoint trimStart (s : string) : string :=
  match s with
  | EmptyString => EmptyString
  | String c r => if is_space c then trimStart r else s
  end.

Fixpoint trimEnd (s : string) : string :=
  match s with
  | EmptyString => EmptyString
  | String c r =>
      match trimEnd r with
      | EmptyString => if is_space c then EmptyString else String c EmptyString
      | r' => String c r'
      end
  end.

Definition trim (s : string) : string := trimEnd (trimStart s).

Fixpoint startsWith (s p : string) {struct p} : bool :=
  match p, s with
  | EmptyString, _ => true
  | String a p', String b s' => Ascii.eqb a b && startsWith s' p'
  | String _ _, EmptyString => false
  end.

(** [String.prototype.includes]: does [q] occur in [s]? *)
Fixpoint includes (s q : string) : bool :=
  startsWith s q ||
  match s with
  | EmptyString => false
  | String _ r => includes r q
  end.

(** A string made of white space only. *)
Fixpoint blank (s : string) : bool :=
  match s with
  | EmptyString => true
  | String c r => is_space c && blank r
  end.

(** [!s] for a string. *)
Definition is_empty (s : string) : bool :=
  match s with EmptyString => true | _ => false end.

(** Code-unit order, the order of [<] and [>=] on strings. *)
Definition str_le (s t : string) : Prop := String.leb s t = true.
Definition str_lt (s t : string) : Prop := String.ltb s t = true.

End JsString.
Import JsString.

(** ** JSON values and live objects *)

Inductive json : Type :=
| JNull
| JBool (b : bool)
| JNum (n : Z)
| JStr (s : string)
| JArr (items : list json)
| JObj (fields : list (string * json)).

(** The result of reading a property: [None] is [undefined]. *)
Definition value := option json.

(** [!!v] *)
Definition truthy (v : value) : bool :=
  match v with
  | None | Some JNull => false
  | Some (JBool b) => b
  | Some (JNum n) => negb (n =? 0)%Z
  | Some (JStr s) => negb (is_empty s)
  | Some (JArr _) | Some (JObj _) => true
  end.

(** [typeof v === "string"] *)
Definition is_string (v : value) : bool :=
  match v with Some (JStr _) => true | _ => false end.

(** [Number.isSafeInteger(n)]: the integers from -(2^53 - 1) to 2^53 - 1.
    [JSON.parse] reads such an integer exactly, two of them are two
    different numbers, and [String] prints all its digits. *)
Definition safe_integer (n : Z) : bool :=
  (Z.abs n <=? 9007199254740991)%Z.

(** [String(n)] for a safe integer [n]: its decimal digits. *)
Definition Number_toString (n : Z) : string :=
  NilZero.string_of_int (Z.to_int n).

(** The string [String(v)] returns when it returns, for a value that is
    not [undefined]; an array prints its elements separated by commas, with
    [null] elements printed empty.  Whether it returns is [printable],
    below. *)
Fixpoint ToString (v : json) : string :=
  match v with
  | JNull => "null"
  | JBool true => "true"
  | JBool false => "false"
  | JNum n => Number_toString n
  | JStr s => s
  | JArr items =>
      (fix join (l : list json) : string :=
         match l with
         | [] => ""
         | x :: r =>
             let sx := match x with JNull => "" | _ => ToString x end in
             match r with
             | [] => sx
             | _ :: _ => sx ++ "," ++ join r
             end
         end) items
  | JObj _ => "[object Object]"
  end.

(** [String(v ?? "")] *)
Definition String_or_empty (v : value) : string :=
  match v with
  | None | Some JNull => ""
  | Some x => ToString x
  end.

(** [v || ""], then converted to a string as a template literal does,
    for a value that can be printed. *)
Definition text_or_empty (v : value) : string :=
  match v with
  | Some x => if truthy v then ToString x else ""
  | None => ""
  end.

(** A live object, as the code reads and writes it: a plain object
    ([obj_items = None]) or an array ([obj_items = Some elements]), with its
    named own properties in insertion order.  An element of a parsed
    [entries] array that passes the guard of [importJSON] is such an object,
    and so is every stored record. *)
Record obj : Type := mkObj {
  obj_items : option (list json);
  obj_props : list (string * json)
}.

Fixpoint assoc_get (k : string) (l : list (string * json)) : value :=
  match l with
  | [] => None
  | (k', v) :: r => if String.eqb k k' then Some v else assoc_get k r
  end.

Fixpoint assoc_set (k : string) (v : json) (l : list (string * json))
  : list (string * json) :=
  match l with
  | [] => [(k, v)]
  | (k', v') :: r =>
      if String.eqb k k' then (k, v) :: r else (k', v') :: assoc_set k v r
  end.

(** A value [String(v)] can print.  An object of a parsed document is
    printed by [Object.prototype.toString] unless it has an own property
    [toString]; that property is never a function, so that the conversion
    ends in a TypeError.  An array prints its elements, and fails where one
    of them does. *)
Fixpoint printable (v : json) : bool :=
  match v with
  | JArr items =>
      (fix all (l : list json) : bool :=
         match l with
         | [] => true
         | x :: r => printable x && all r
         end) items
  | JObj fields =>
      match assoc_get "toString" fields with
      | Some _ => false
      | None => true
      end
  | JNull | JBool _ | JNum _ | JStr _ => true
  end.

(** Every number in the value is a safe integer. *)
Fixpoint safe (v : json) : bool :=
  match v with
  | JNum n => safe_integer n
  | JArr items =>
      (fix all (l : list json) : bool :=
         match l with
         | [] => true
         | x :: r => safe x && all r
         end) items
  | JObj fields =>
      (fix all (l : list (string * json)) : bool :=
         match l with
         | [] => true
         | (_, x) :: r => safe x && all r
         end) fields
  | JNull | JBool _ | JStr _ => true
  end.

(** [o.k], for the property names the code uses (none of them is an array
    index, ["length"] or a method of a prototype). *)
Definition get (o : obj) (k : string) : value := assoc_get k (obj_props o).

(** [o.k = v] *)
Definition set (o : obj) (k : string) (v : json) : obj :=
  mkObj (obj_items o) (assoc_set k v (obj_props o)).

(** [k in o] *)
Definition has (o : obj) (k : string) : bool :=
  match get o k with Some _ => true | None => false end.

(** The name of the array index [i]. *)
Definition index_name (i : nat) : string := Number_toString (Z.of_nat i).

(** A property name that does not start with a digit is not an index. *)
Definition is_digit (c : ascii) : bool :=
  let n := N_of_ascii c in ((48 <=? n) && (n <=? 57))%N.

Definition named (k : string) : bool :=
  match k with
  | EmptyString => true
  | String c _ => negb (is_digit c)
  end.

(** [{ ...o }]: the own enumerable properties of [o] in a fresh plain
    object; an array contributes its elements under their indices, which
    come before its named properties. *)
Definition spread (o : obj) : obj :=
  match obj_items o with
  | None => mkObj None (obj_props o)
  | Some items =>
      mkObj None
        (combine (map index_name (seq 0 (List.length items))) items
         ++ obj_props o)
  end.

(** What [JSON.stringify] writes for a live object: an array is written by
    its elements alone, its named properties are dropped. *)
Definition to_json (o : obj) : json :=
  match obj_items o with
  | Some items => JArr items
  | None => JObj (obj_props o)
  end.

(** The live object [JSON.parse] builds for an array or object value;
    [None] for the values that are not objects. *)
Definition of_json (v : json) : option obj :=
  match v with
  | JObj fields => Some (mkObj None fields)
  | JArr items => Some (mkObj (Some items) [])
  | _ => None
  end.

(** ** The object store

    The IndexedDB object store ["entries"] is created with
    [{ keyPath: "id" }]: a record is stored under the key found in its own
    property [id], and the store holds at most one record per key. *)

(** The keys IndexedDB accepts among JSON values: numbers, strings and
    arrays of keys. *)
Inductive key : Type :=
| KNum (n : Z)
| KStr (s : string)
| KArr (l : list key).

Fixpoint key_of (v : json) : option key :=
  match v with
  | JNum n => Some (KNum n)
  | JStr s => Some (KStr s)
  | JArr items =>
      option_map KArr
        ((fix all (l : list json) : option (list key) :=
            match l with
            | [] => Some []
            | x :: r =>
                match key_of x, all r with
                | Some k, Some ks => Some (k :: ks)
                | _, _ => None
                end
            end) items)
  | JNull | JBool _ | JObj _ => None
  end.

Fixpoint key_eqb (a b : key) : bool :=
  match a, b with
  | KNum x, KNum y => (x =? y)%Z
  | KStr x, KStr y => String.eqb x y
  | KArr l, KArr m =>
      (fix all (l m : list key) : bool :=
         match l, m with
         | [], [] => true
         | x :: l', y :: m' => key_eqb x y && all l' m'
         | _, _ => false
         end) l m
  | _, _ => false
  end.

(** The order of keys: numbers before strings before arrays; numbers by
    value, strings by code units, arrays element by element. *)
Fixpoint key_compare (a b : key) : comparison :=
  match a, b with
  | KNum x, KNum y => (x ?= y)%Z
  | KNum _, _ => Lt
  | KStr _, KNum _ => Gt
  | KStr x, KStr y => String.compare x y
  | KStr _, KArr _ => Lt
  | KArr l, KArr m =>
      (fix lex (l m : list key) : comparison :=
         match l, m with
         | [], [] => Eq
         | [], _ :: _ => Lt
         | _ :: _, [] => Gt
         | x :: l', y :: m' =>
             match key_compare x y with
             | Eq => lex l' m'
             | c => c
             end
         end) l m
  | KArr _, _ => Gt
  end.

(** The key of a record, extracted along the key path ["id"]. *)
Definition key_at (o : obj) : option key :=
  match get o "id" with
  | Some v => key_of v
  | None => None
  end.

Definition store := list obj.

Definition at_key (k : key) (o : obj) : bool :=
  match key_at o with
  | Some k' => key_eqb k k'
  | None => false
  end.

Definition store_get (k : key) (st : store) : option obj :=
  find (at_key k) st.

Definition store_delete (k : key) (st : store) : store :=
  filter (fun o => negb (at_key k o)) st.

(** A record enters the store at the place of its key, so that the store
    is read back in key order. *)
Fixpoint store_insert (k : key) (o : obj) (st : store) : store :=
  match st with
  | [] => [o]
  | o' :: r =>
      match key_at o' with
      | Some k' =>
          match key_compare k k' with
          | Gt => o' :: store_insert k o r
          | _ => o :: st
          end
      | None => o :: st
      end
  end.

(** ** Effects: exceptions, the host and the monad of the program *)

Inductive exn : Type :=
| Error (message : string)
| TypeError
| DataError
| ConstraintError.

Inductive result (A : Type) : Type :=
| Ok (a : A)
| Throw (e : exn).
Arguments Ok {A} a.
Arguments Throw {A} e.

(** [String(v)] *)
Definition String_of (v : json) : result string :=
  if printable v then Ok (ToString v) else Throw TypeError.

(** [store.put(o)]: insert or replace; a record without a valid key is
    refused with a [DataError]. *)
Definition store_put (o : obj) (st : store) : result store :=
  match key_at o with
  | None => Throw DataError
  | Some k => Ok (store_insert k o (store_delete k st))
  end.

(** [store.add(o)]: as [put], but a record whose key is already taken
    aborts the transaction with a [ConstraintError]. *)
Definition store_add (o : obj) (st : store) : result store :=
  match key_at o with
  | None => Throw DataError
  | Some k =>
      match store_get k st with
      | Some _ => Throw ConstraintError
      | None => Ok (store_insert k o st)
      end
  end.

(** What the browser supplies: the successive readings of the clock, as
    [toISOString] prints them; the successive results of [uuid()]; and the
    sign of [String.prototype.localeCompare]. *)
Class Host : Type := {
  clock : nat -> string;
  uuids : nat -> string;
  localeCompare : string -> string -> comparison
}.

(** The state the program runs in: the store, and how many times the clock
    and the identifier generator have been consulted. *)
Record World : Type := mkWorld {
  db : store;
  ticks : nat;
  draws : nat
}.

Definition M (A : Type) : Type := World -> result A * World.

Definition ret {A} (a : A) : M A := fun w => (Ok a, w).

Definition throw {A} (e : exn) : M A := fun w => (Throw e, w).

Definition bind {A B} (m : M A) (f : A -> M B) : M B :=
  fun w =>
    match m w with
    | (Ok a, w') => f a w'
    | (Throw e, w') => (Throw e, w')
    end.

(** [try { m } catch { h }] *)
Definition try_catch {A} (m : M A) (h : exn -> M A) : M A :=
  fun w =>
    match m w with
    | (Ok a, w') => (Ok a, w')
    | (Throw e, w') => h e w'
    end.

Definition lift {A} (r : result A) : M A := fun w => (r, w).

Declare Scope js_scope.
Delimit Scope js_scope with js.
Notation "x <- m ;; f" := (bind m (fun x => f))
  (at level 61, m at next level, right associativity) : js_scope.
Notation "m ;; f" := (bind m (fun _ => f))
  (at level 61, right associativity) : js_scope.
Open Scope js_scope.

(** ** The program *)

(** A JSON text: [Doc v] is a well-formed document denoting [v];
    [Malformed] is any text [JSON.parse] rejects. *)
Inductive text : Type :=
| Malformed
| Doc (v : json).

Definition JSON_parse (t : text) : option json :=
  match t with
  | Malformed => None
  | Doc v => Some v
  end.

Definition JSON_stringify (v : json) : text := Doc v.

(** [Array.prototype.sort(cmp)]: a stable sort; [cmp a b] positive puts
    [a] after [b].  The comparator may throw.  Which pairs reach the
    comparator, and which element of a pair comes first, is the choice of
    the engine; this is one such choice, and the properties below that
    involve a sort are stated so that they hold for every other one: either
    no call of the comparator can throw, or both outcomes are allowed. *)
Fixpoint sort_insert {A} (cmp : A -> A -> result comparison) (x : A) (l : list A)
  : result (list A) :=
  match l with
  | [] => Ok [x]
  | y :: r =>
      match cmp x y with
      | Throw e => Throw e
      | Ok Gt =>
          match sort_insert cmp x r with
          | Ok r' => Ok (y :: r')
          | Throw e => Throw e
          end
      | Ok _ => Ok (x :: l)
      end
  end.

Fixpoint sort {A} (cmp : A -> A -> result comparison) (l : list A)
  : result (list A) :=
  match l with
  | [] => Ok []
  | x :: r =>
      match sort cmp r with
      | Ok r' => sort_insert cmp x r'
      | Throw e => Throw e
      end
  end.

(** The five text inputs of the log form, and of the edit dialog. *)
Record Fields : Type := mkFields {
  f_item : string;
  f_location : string;
  f_inventory : string;
  f_date : string;
  f_notes : string
}.

(** What a handler tells the user: for a handler that answers one
    [notice], the last message it shows. *)
Inductive notice : Type :=
| ItemRequired      (* "Item is required." / toast "Item required" *)
| Yeeted            (* toast "Yeeted." *)
| SaveFailed        (* "Save failed. Try again." *)
| NotLoaded         (* "Could not load entry for update." *)
| Updated           (* toast "Updated" *)
| UpdateFailed      (* "Update failed. Try again." *)
| Cancelled         (* the confirm dialog was dismissed *)
| Deleted           (* toast "Deleted" *)
| DeleteFailed.     (* "Delete failed. Try again." *)

Section Program.

Context {host : Host}.

Definition nowISO : M string :=
  fun w => (Ok (clock (ticks w)), mkWorld (db w) (S (ticks w)) (draws w)).

Definition uuid : M string :=
  fun w => (Ok (uuids (draws w)), mkWorld (db w) (ticks w) (S (draws w))).

(** [tx("readwrite", fn)]: the store changes only if [fn] succeeds. *)
Definition tx (fn : store -> result store) : M unit :=
  fun w =>
    match fn (db w) with
    | Ok st => (Ok tt, mkWorld st (ticks w) (draws w))
    | Throw e => (Throw e, w)
    end.

Definition addEntry (entry : obj) : M unit := tx (store_add entry).

Definition putEntry (entry : obj) : M unit := tx (store_put entry).

(** [deleteEntry] and [getEntry] take the key itself: an [id] that is not
    a key does not occur, their callers pass the [id] of a stored record
    or the string the edit dialog holds. *)
Definition deleteEntry (id : key) : M unit :=
  tx (fun st => Ok (store_delete id st)).

Definition getEntry (id : key) : M (option obj) :=
  fun w => (Ok (store_get id (db w)), w).

Definition getAllEntries : M (list obj) :=
  fun w => (Ok (db w), w).

(** [(a, b) => (b.created_at || "").localeCompare(a.created_at || "")]:
    the receiver must be a string for [localeCompare] to exist, and the
    argument is converted to a string. *)
Definition newestFirst (a b : obj) : result comparison :=
  let that :=
    match get a "created_at" with
    | Some x => if truthy (Some x) then String_of x else Ok ""
    | None => Ok ""
    end in
  match get b "created_at" with
  | Some (JStr s) =>
      match that with
      | Ok t => Ok (localeCompare s t)
      | Throw err => Throw err
      end
  | v =>
      if truthy v then Throw TypeError
      else
        match that with
        | Ok t => Ok (localeCompare "" t)
        | Throw err => Throw err
        end
  end.

Definition exportJSON : M text :=
  entries <- getAllEntries ;;
  sorted <- lift (sort newestFirst entries) ;;
  now <- nowISO ;;
  ret (JSON_stringify
         (JObj [("exported_at", JStr now);
                ("entries", JArr (map to_json sorted))])).

(** [if (typeof e.f !== "string") e.f = String(e.f ?? "")]: the
    conversion throws where the value cannot be printed. *)
Definition coerce (f : string) (e : obj) : result obj :=
  if is_string (get e f) then Ok e
  else
    match get e f with
    | None | Some JNull => Ok (set e f (JStr ""))
    | Some x =>
        match String_of x with
        | Ok s => Ok (set e f (JStr s))
        | Throw err => Throw err
        end
    end.

(** The body of the loop of [importJSON] for an element that passed the
    guard: the element is completed in place and put. *)
Definition importJSON_entry (e : obj) : M unit :=
  e <- (if truthy (get e "id") then ret e
        else (id <- uuid ;; ret (set e "id" (JStr id)))) ;;
  e <- (if truthy (get e "created_at") then ret e
        else (now <- nowISO ;; ret (set e "created_at" (JStr now)))) ;;
  let e := if has e "updated_at" then e else set e "updated_at" JNull in
  e <- lift (coerce "item" e) ;;
  e <- lift (coerce "location" e) ;;
  e <- lift (coerce "inventory" e) ;;
  e <- lift (coerce "date" e) ;;
  e <- lift (coerce "notes" e) ;;
  putEntry e.

(** [for (const e of entries)]; [of_json v = None] is the guard
    [!e || typeof e !== "object"], which skips [null], booleans, numbers
    and strings. *)
Fixpoint importJSON_loop (entries : list json) : M unit :=
  match entries with
  | [] => ret tt
  | v :: rest =>
      match of_json v with
      | None => importJSON_loop rest
      | Some e => importJSON_entry e ;; importJSON_loop rest
      end
  end.

(** [Array.isArray(parsed?.entries) ? parsed.entries : null] *)
Definition entries_of (parsed : json) : option (list json) :=
  match parsed with
  | JObj fields =>
      match assoc_get "entries" fields with
      | Some (JArr l) => Some l
      | _ => None
      end
  | _ => None
  end.

Definition importJSON (jsonText : text) : M nat :=
  match JSON_parse jsonText with
  | None => throw (Error "Invalid JSON.")
  | Some parsed =>
      match entries_of parsed with
      | None => throw (Error "JSON must include { entries: [...] }.")
      | Some entries =>
          importJSON_loop entries ;;
          ret (List.length entries)
      end
  end.

Definition matchesQuery (e : obj) (q : string) : bool :=
  if is_empty q then true
  else
    let hay :=
      toLowerCase
        (text_or_empty (get e "item") ++ " " ++
         text_or_empty (get e "location") ++ " " ++
         text_or_empty (get e "notes")) in
    includes hay q.

(** The filtering step of [renderSearch]: [qValue] is the content of the
    search box. *)
Definition searchFilter (searchCache : list obj) (qValue : string) : list obj :=
  let q := toLowerCase (trim qValue) in
  filter (fun e => matchesQuery e q) searchCache.

(** [renderMaster] and [renderSearch], as far as the entries they show. *)
Definition renderMaster : M (list obj) :=
  entries <- getAllEntries ;;
  lift (sort newestFirst entries).

Definition renderSearch (qValue : string) : M (list obj) :=
  searchCache <- getAllEntries ;;
  searchCache <- lift (sort newestFirst searchCache) ;;
  ret (searchFilter searchCache qValue).

(** The submit handler of the log form ([wireLogForm]). *)
Definition logForm_submit (form : Fields) : M notice :=
  let item := trim (f_item form) in
  let location := trim (f_location form) in
  let inventory := trim (f_inventory form) in
  let date := trim (f_date form) in
  let notes := trim (f_notes form) in
  if is_empty item then ret ItemRequired
  else
    id <- uuid ;;
    now <- nowISO ;;
    let entry :=
      mkObj None
        [("id", JStr id); ("created_at", JStr now); ("updated_at", JNull);
         ("item", JStr item); ("location", JStr location);
         ("inventory", JStr inventory); ("date", JStr date);
         ("notes", JStr notes)] in
    try_catch (addEntry entry ;; ret Yeeted) (fun _ => ret SaveFailed).

(** [saveEdit]: [eId] and [form] are the fields of the edit dialog,
    [qValue] the search box read by the final [renderSearch]. *)
Definition saveEdit (eId : string) (form : Fields) (qValue : string) : M notice :=
  let item := trim (f_item form) in
  if is_empty item then ret ItemRequired
  else
    existing <- getEntry (KStr eId) ;;
    match existing with
    | None => ret NotLoaded
    | Some existing =>
        let updated := spread existing in
        let updated := set updated "item" (JStr item) in
        let updated := set updated "location" (JStr (trim (f_location form))) in
        let updated := set updated "inventory" (JStr (trim (f_inventory form))) in
        let updated := set updated "date" (JStr (trim (f_date form))) in
        let updated := set updated "notes" (JStr (trim (f_notes form))) in
        now <- nowISO ;;
        let updated := set updated "updated_at" (JStr now) in
        try_catch
          (putEntry updated ;; renderMaster ;; renderSearch qValue ;; ret Updated)
          (fun _ => ret UpdateFailed)
    end.

(** [confirmDelete]: [ok] is the answer to the confirm dialog. *)
Definition confirmDelete (eId : string) (ok : bool) (qValue : string) : M notice :=
  if ok then
    try_catch
      (deleteEntry (KStr eId) ;; renderMaster ;; renderSearch qValue ;; ret Deleted)
      (fun _ => ret DeleteFailed)
  else ret Cancelled.

End Program.

(** ** Notions the properties are stated with *)

(** The record [saveEdit] writes over [existing]: its object literal. *)
Definition edited (existing : obj) (form : Fields) (now : string) : obj :=
  set (set (set (set (set (set (spread existing)
    "item" (JStr (trim (f_item form))))
    "location" (JStr (trim (f_location form))))
    "inventory" (JStr (trim (f_inventory form))))
    "date" (JStr (trim (f_date form))))
    "notes" (JStr (trim (f_notes form))))
    "updated_at" (JStr now).

Definition text_fields : list string :=
  ["item"; "location"; "inventory"; "date"; "notes"].

(** The record [coerce] returns when it returns. *)
Definition coerced (f : string) (e : obj) : obj :=
  if is_string (get e f) then e
  else set e f (JStr (String_or_empty (get e f))).

(** The element [e] after the assignments of the loop of [importJSON],
    when [uuid()] would answer [id] and [nowISO()] would answer [now], and
    the five conversions return. *)
Definition completed (e : obj) (id now : string) : obj :=
  let e := if truthy (get e "id") then e else set e "id" (JStr id) in
  let e := if truthy (get e "created_at") then e
           else set e "created_at" (JStr now) in
  let e := if has e "updated_at" then e else set e "updated_at" JNull in
  coerced "notes" (coerced "date" (coerced "inventory"
    (coerced "location" (coerced "item" e)))).

(** The five conversions of the loop return: no text field of the
    element holds a value that cannot be printed. *)
Definition field_printable (v : value) : bool :=
  match v with
  | Some x => printable x
  | None => true
  end.

Definition texts_printable (e : obj) : bool :=
  forallb (fun f => field_printable (get e f)) text_fields.

(** The numbers of the element are safe integers. *)
Definition safe_record (e : obj) : bool :=
  safe (JObj (obj_props e)) &&
  match obj_items e with
  | Some items => safe (JArr items)
  | None => true
  end.

(** The text a field holds after [coerce]. *)
Definition as_text (v : value) : string :=
  match v with
  | Some (JStr s) => s
  | None | Some JNull => ""
  | Some x => ToString x
  end.

(** The elements of a payload that pass the guard of [importJSON], and
    their number, the count the specification describes. *)
Definition is_record (v : json) : bool :=
  match of_json v with Some _ => true | None => false end.

Definition records_processed (payload : list json) : nat :=
  List.length (filter is_record payload).

(** The text [matchesQuery] searches, before it is lowercased: the
    template literal of the three fields. *)
Definition haystack (e : obj) : string :=
  text_or_empty (get e "item") ++ " " ++
  text_or_empty (get e "location") ++ " " ++
  text_or_empty (get e "notes").

(** The filter in the words of the specification: an empty query keeps
    everything; otherwise an entry is kept when the lowercased
    concatenation of [item], [location] and [notes] contains the lowercased
    query. *)
Definition concatenation (e : obj) : string :=
  text_or_empty (get e "item") ++
  text_or_empty (get e "location") ++
  text_or_empty (get e "notes").

Definition filter_as_specified (entries : list obj) (query : string) : list obj :=
  if is_empty query then entries
  else
    filter
      (fun e => includes (toLowerCase (concatenation e)) (toLowerCase query))
      entries.

(** [l] is [m] with some elements left out, the others in their order. *)
Inductive subsequence {A : Type} : list A -> list A -> Prop :=
| subsequence_nil : subsequence [] []
| subsequence_skip x l m : subsequence l m -> subsequence l (x :: m)
| subsequence_keep x l m : subsequence l m -> subsequence (x :: l) (x :: m).

(** The string the comparator of [sort] reads from a record. *)
Definition created (o : obj) : string := text_or_empty (get o "created_at").

Definition is_char (c d : ascii) : bool := Ascii.eqb c d.

(** A timestamp as [toISOString] prints it: [YYYY-MM-DDTHH:MM:SS.sssZ]. *)
Definition timestamp_shape : list (ascii -> bool) :=
  [is_digit; is_digit; is_digit; is_digit; is_char "-";
   is_digit; is_digit; is_char "-"; is_digit; is_digit; is_char "T";
   is_digit; is_digit; is_char ":"; is_digit; is_digit; is_char ":";
   is_digit; is_digit; is_char "."; is_digit; is_digit; is_digit;
   is_char "Z"]%char.

Fixpoint fits (shape : list (ascii -> bool)) (s : string) : bool :=
  match shape, s with
  | [], EmptyString => true
  | p :: shape', String c s' => p c && fits shape' s'
  | _, _ => false
  end.

Definition timestamp (s : string) : bool := fits timestamp_shape s.

(** The [created_at] of the record is a timestamp. *)
Definition has_timestamp (o : obj) : Prop :=
  exists s, get o "created_at" = Some (JStr s) /\ timestamp s = true.

(** Whatever the locale, collation orders two timestamps as their code
    units do: they differ first at a digit. *)
Definition collates_timestamps (host : Host) : Prop :=
  forall s t,
    timestamp s = true -> timestamp t = true ->
    localeCompare s t = String.compare s t.

(** Newest first, and strictly so. *)
Definition newer_or_same (a b : obj) : Prop := str_le (created b) (created a).
Definition newer (a b : obj) : Prop := str_lt (created b) (created a).

(** A stored record of the shape the data model gives an entry: a plain
    object with an [id] that is set and is a key, a [created_at] that is a
    non-empty string, an [updated_at], and five text fields. *)
Definition is_entry (o : obj) : bool :=
  match obj_items o with None => true | Some _ => false end &&
  truthy (get o "id") &&
  match key_at o with Some _ => true | None => false end &&
  is_string (get o "created_at") && truthy (get o "created_at") &&
  has o "updated_at" &&
  forallb (fun f => is_string (get o f)) text_fields.

(** The store holds one record per key. *)
Definition one_per_key (st : store) : Prop := NoDup (map key_at st).

(** The store in key order: every record has a key, and the keys grow
    strictly along the list. *)
Definition key_lt (a b : obj) : Prop :=
  match key_at a, key_at b with
  | Some ka, Some kb => key_compare ka kb = Lt
  | _, _ => False
  end.

Definition key_ordered (st : store) : Prop :=
  StronglySorted key_lt st /\ Forall (fun o => key_at o <> None) st.

(** A store as the log form and the edit dialog keep it: in key order,
    and every record an entry. *)
Definition entries_only (st : store) : Prop :=
  key_ordered st /\ Forall (fun o => is_entry o = true) st.


(** The identifier generator never answers the same string twice. *)
Definition never_repeats (host : Host) : Prop :=
  forall i j, uuids i = uuids j -> i = j.

(** The clock never runs backwards. *)
Definition monotone_clock (host : Host) : Prop :=
  forall i j, i <= j -> str_le (clock i) (clock j).

(** ** A sample host and sample data for the examples *)

(** The clock reads midnight of three successive days and then stays. *)
Definition sample_clock (n : nat) : string :=
  match n with
  | 0 => "2026-01-01T00:00:00.000Z"
  | 1 => "2026-01-02T00:00:00.000Z"
  | _ => "2026-01-03T00:00:00.000Z"
  end.

Definition sample_uuids (n : nat) : string := "id-" ++ index_name n.

(** Collation by code units, which is how every locale orders two
    timestamps printed by [toISOString]. *)
#[local] Instance sample_host : Host := {|
  clock := sample_clock;
  uuids := sample_uuids;
  localeCompare := String.compare
|}.

Definition empty_world : World := mkWorld [] 0 0.

(** A record as the log form makes it. *)
Definition entry (id created : string) (updated : json)
  (item location inventory date notes : string) : obj :=
  mkObj None
    [("id", JStr id); ("created_at", JStr created); ("updated_at", updated);
     ("item", JStr item); ("location", JStr location);
     ("inventory", JStr inventory); ("date", JStr date); ("notes", JStr notes)].

Definition drill : obj :=
  entry "a" "2025-03-01T10:00:00.000Z" JNull "Drill" "Garage" "" "" "needs battery".

Definition screws : obj :=
  entry "b" "2025-03-02T10:00:00.000Z" JNull "Screws" "Shed" "3" "" "".

Definition ladder : obj :=
  entry "c" "2025-02-27T08:30:00.000Z" JNull "Ladder" "Attic" "1" "" "".

(** A store with the three records, in key order. *)
Definition sample_world : World := mkWorld [drill; screws; ladder] 0 0.

(** A record whose [created_at] lies after every reading of the sample
    clock, as an imported backup may carry. *)
Definition from_the_future : json :=
  JObj [("id", JStr "z"); ("created_at", JStr "2030-01-01T00:00:00.000Z");
        ("item", JStr "Saw")].

(** An element whose text fields hold values that are not text: a
    number, an array, an object; and one whose [item] cannot be printed. *)
Definition untyped : obj :=
  mkObj None
    [("item", JNum 5); ("location", JArr [JNum 1; JNull; JStr "x"]);
     ("inventory", JObj [("n", JNum 2)]); ("date", JBool true)].

Definition trap : json := JObj [("item", JObj [("toString", JNum 1)])].

(** Two fields whose ends meet across the field boundary. *)
Definition abcd : obj := entry "d" "2025-03-03T10:00:00.000Z" JNull "ab" "cd" "" "" "".

(** ** The edit dialog, the pills and the import control *)

Section Dialogs.

Context {host : Host}.

(** The string [input.value = v] assigns, for a value that can be
    printed. *)
Definition input_value (v : value) : string :=
  match v with
  | None => "undefined"
  | Some JNull => ""
  | Some x => ToString x
  end.

(** The five text fields of a record as [openEdit] assigns them to the
    inputs of the dialog. *)
Definition fields_of (e : obj) : Fields :=
  mkFields (text_or_empty (get e "item"))
           (text_or_empty (get e "location"))
           (text_or_empty (get e "inventory"))
           (text_or_empty (get e "date"))
           (text_or_empty (get e "notes")).

(** [openEdit]: [None] is the toast "Not found"; otherwise the values
    assigned to the field [eId] and to the five inputs of the edit
    dialog.  What a control then holds is the business of the page: a
    text input drops the line breaks of the value it is given. *)
Definition openEdit (id : key) : M (option (string * Fields)) :=
  e <- getEntry id ;;
  match e with
  | None => ret None
  | Some e => ret (Some (input_value (get e "id"), fields_of e))
  end.

(** The messages [saveEdit] shows, in order.  The toast "Updated" follows
    the put and comes before the refresh of the views; when the refresh
    throws, "Update failed" is shown after it. *)
Definition saveEdit_messages (eId : string) (form : Fields) (qValue : string)
  : M (list notice) :=
  let item := trim (f_item form) in
  if is_empty item then ret [ItemRequired]
  else
    existing <- getEntry (KStr eId) ;;
    match existing with
    | None => ret [NotLoaded]
    | Some existing =>
        now <- nowISO ;;
        let updated := edited existing form now in
        try_catch
          (putEntry updated ;;
           try_catch
             (renderMaster ;; renderSearch qValue ;; ret [Updated])
             (fun _ => ret [Updated; UpdateFailed]))
          (fun _ => ret [UpdateFailed])
    end.

(** The messages [confirmDelete] shows, in order: none when the confirm
    dialog is dismissed; the toast "Deleted" follows the deletion and comes
    before the refresh of the views. *)
Definition confirmDelete_messages (eId : string) (ok : bool) (qValue : string)
  : M (list notice) :=
  if ok then
    try_catch
      (deleteEntry (KStr eId) ;;
       try_catch
         (renderMaster ;; renderSearch qValue ;; ret [Deleted])
         (fun _ => ret [Deleted; DeleteFailed]))
      (fun _ => ret [DeleteFailed])
  else ret [].

(** What the change handler of the import control ([wireExportImport])
    shows: the toast "Imported n item(s)", the alert "Import failed: ...",
    or both when the import returned and the refresh of the views threw. *)
Inductive import_message : Type :=
| ImportedToast (n : nat)
| ImportFailedAlert (err : exn).

Definition importFile_change (file : option text) (qValue : string)
  : M (list import_message) :=
  match file with
  | None => ret []
  | Some jsonText =>
      try_catch
        (n <- importJSON jsonText ;;
         try_catch
           (renderMaster ;; renderSearch qValue ;; ret [ImportedToast n])
           (fun err => ret [ImportedToast n; ImportFailedAlert err]))
        (fun err => ret [ImportFailedAlert err])
  end.

End Dialogs.

(** [entryPills]: the values pushed, in order. *)
Definition entryPills (e : obj) : list json :=
  ((if truthy (get e "location")
    then match get e "location" with Some v => [v] | None => [] end
    else []) ++
   (if truthy (get e "inventory")
    then [JStr ("Count " ++ text_or_empty (get e "inventory"))]
    else []) ++
   (if truthy (get e "date")
    then match get e "date" with Some v => [v] | None => [] end
    else []) ++
   (if truthy (get e "notes") then [JStr "Notes"] else []))%list.

(** The number of the four fields the pills show that are set. *)
Definition shown_fields (e : obj) : nat :=
  List.length
    (filter (fun f => truthy (get e f)) ["location"; "inventory"; "date"; "notes"]).

(** An element of a payload that either is skipped or carries its own
    [id], a key, and its own [created_at], and whose text fields can be
    printed: importing it draws no identifier, reads no clock and does not
    throw. *)
Definition self_contained (v : json) : bool :=
  match of_json v with
  | None => true
  | Some e =>
      truthy (get e "id") && truthy (get e "created_at") &&
      match key_at e with Some _ => true | None => false end &&
      texts_printable e
  end.

(** The record the loop of [importJSON] puts for a self-contained
    element. *)
Definition settled (e : obj) : obj := completed e "" "".

(** The last record of a payload that goes under the key [k]. *)
Fixpoint last_under (k : key) (payload : list json) : option obj :=
  match payload with
  | [] => None
  | v :: rest =>
      match last_under k rest with
      | Some e => Some e
      | None =>
          match of_json v with
          | Some e => if at_key k (settled e) then Some (settled e) else None
          | None => None
          end
      end
  end.

(** A [created_at] the comparator of the sort can read: a string, or a
    falsy value, which counts as the empty string. *)
Definition sortable (o : obj) : bool :=
  is_string (get o "created_at") || negb (truthy (get o "created_at")).

(** A record the edit dialog can show: its five text fields are text, as
    the log form, the dialog and import leave them, and its two timestamps
    are text, [null] or missing. *)
Definition text_or_null (v : value) : bool :=
  match v with
  | None | Some JNull | Some (JStr _) => true
  | _ => false
  end.

Definition showable (e : obj) : bool :=
  forallb (fun f => is_string (get e f)) text_fields &&
  text_or_null (get e "created_at") && text_or_null (get e "updated_at").

(** A record with a numeric [id], as an imported file may bring. *)
Definition numbered : obj :=
  mkObj None
    [("id", JNum 7); ("created_at", JStr "2025-01-05T09:00:00.000Z");
     ("updated_at", JNull); ("item", JStr "Tape"); ("location", JStr "");
     ("inventory", JStr ""); ("date", JStr ""); ("notes", JStr "")].

Definition numbered_world : World := mkWorld [numbered; drill] 0 0.

(** Two records whose [created_at] is a number, which [importJSON] stores
    as given, alone and beside an entry: the two have to be compared, and
    the comparator throws whichever of them it is called on. *)
Definition undated (id : string) (n : Z) : obj :=
  mkObj None
    [("id", JStr id); ("created_at", JNum n); ("updated_at", JNull);
     ("item", JStr "Box"); ("location", JStr ""); ("inventory", JStr "");
     ("date", JStr ""); ("notes", JStr "")].

Definition unsortable_world : World :=
  mkWorld [drill; undated "m" 5; undated "n" 6] 0 0.

Definition undated_world : World :=
  mkWorld [undated "m" 5; undated "n" 6] 0 0.

(** A payload whose second element has an [item] that cannot be
    printed. *)
Definition trapped_payload : json :=
  JObj [("entries",
         JArr [JObj [("id", JStr "k"); ("item", JStr "Kettle")];
               JObj [("id", JStr "t"); ("item", JObj [("toString", JNum 1)])];
               JObj [("id", JStr "l")]])].

(** A payload whose second element has an [id] that is no key, and the
    record its first element becomes on the sample host. *)
Definition mixed_payload : json :=
  JObj [("entries",
         JArr [JObj [("id", JStr "k"); ("item", JStr "Kettle")];
               JObj [("id", JBool true)];
               JObj [("id", JStr "l")]])].

Definition kettle : obj :=
  mkObj None
    [("id", JStr "k"); ("item", JStr "Kettle");
     ("created_at", JStr "2026-01-01T00:00:00.000Z"); ("updated_at", JNull);
     ("location", JStr ""); ("inventory", JStr ""); ("date", JStr "");
     ("notes", JStr "")].

(** A payload that brings the key ["a"] twice, and a new key once. *)
Definition drill_twice : json :=
  JObj [("entries",
         JArr [JObj [("id", JStr "a"); ("created_at", JStr "2025-03-01T10:00:00.000Z");
                     ("item", JStr "Drill, old")];
               JNull;
               JObj [("id", JStr "e"); ("created_at", JStr "2025-04-01T10:00:00.000Z");
                     ("item", JStr "")];
               JObj [("id", JStr "a"); ("created_at", JStr "2025-03-01T10:00:00.000Z");
                     ("item", JStr "Drill, new")]])].

Definition drill_twice_entries : list json :=
  match entries_of drill_twice with Some l => l | None => [] end.

(** * Properties *)

(** ** Strings *)

Section StringFacts.

Lemma is_empty_true (s : string) : is_empty s = true <-> s = "".
Proof. destruct s; simpl; split; congruence. Qed.

Lemma is_empty_false (s : string) : is_empty s = false <-> s <> "".
Proof. destruct s; simpl; split; congruence. Qed.

Lemma append_nil_r (s : string) : s ++ "" = s.
Proof. induction s; simpl; congruence. Qed.

Lemma append_assoc (a b c : string) : (a ++ b) ++ c = a ++ b ++ c.
Proof. induction a; simpl; congruence. Qed.

Lemma startsWith_spec (s p : string) :
  startsWith s p = true <-> exists post, s = p ++ post.
Proof.
  revert s; induction p as [|a p IH]; intros s; simpl.
  - split; [exists s; reflexivity | reflexivity].
  - destruct s as [|b s].
    + split; [discriminate | intros [post H]; discriminate].
    + rewrite andb_true_iff, Ascii.eqb_eq, IH. split.
      * intros [-> [post ->]]. exists post. reflexivity.
      * intros [post H]. injection H as -> ->. split; [reflexivity | eauto].
Qed.

Lemma includes_spec (s q : string) :
  includes s q = true <-> exists pre post, s = pre ++ q ++ post.
Proof.
  induction s as [|c s IH].
  - simpl. rewrite orb_false_r, startsWith_spec. split.
    + intros [post H]. exists "", post. exact H.
    + intros [pre [post H]]. destruct pre; [eauto | discriminate].
  - cbn [includes]. rewrite orb_true_iff, startsWith_spec, IH. split.
    + intros [[post H] | [pre [post H]]].
      * exists "", post. exact H.
      * exists (String c pre), post. simpl. congruence.
    + intros [[|c' pre] [post H]].
      * left. exists post. exact H.
      * right. injection H as _ H. eauto.
Qed.

Lemma includes_empty (s : string) : includes s "" = true.
Proof. apply includes_spec. exists "", s. reflexivity. Qed.

Lemma toLowerCase_app (a b : string) :
  toLowerCase (a ++ b) = toLowerCase a ++ toLowerCase b.
Proof. induction a; simpl; congruence. Qed.

Lemma toLowerCase_empty (s : string) : toLowerCase s = "" <-> s = "".
Proof. destruct s; simpl; split; congruence. Qed.

Lemma trimStart_blank (s : string) : blank s = true -> trimStart s = "".
Proof.
  induction s as [|c s IH]; simpl; [reflexivity|].
  rewrite andb_true_iff. intros [-> H]. auto.
Qed.

Lemma trim_blank (s : string) : blank s = true -> trim s = "".
Proof. intros H. unfold trim. rewrite trimStart_blank by exact H. reflexivity. Qed.

Lemma trimEnd_empty (s : string) : trimEnd s = "" -> blank s = true.
Proof.
  induction s as [|c s IH]; simpl; [reflexivity|].
  destruct (trimEnd s); [|discriminate].
  destruct (is_space c); [auto | discriminate].
Qed.

Lemma trimStart_suffix_blank (s : string) :
  blank (trimStart s) = true -> blank s = true.
Proof.
  induction s as [|c s IH]; simpl; [reflexivity|].
  destruct (is_space c) eqn:E; simpl; [auto | rewrite E; discriminate].
Qed.

(** [trim] yields the empty string on blank strings only. *)
Lemma trim_empty_iff (s : string) : trim s = "" <-> blank s = true.
Proof.
  split; [|apply trim_blank].
  intros H. apply trimStart_suffix_blank, trimEnd_empty, H.
Qed.

Lemma compare_refl (s : string) : String.compare s s = Eq.
Proof.
  destruct (String.compare s s) eqn:E; [reflexivity| |];
    pose proof (String.compare_antisym s s) as H; rewrite E in H; discriminate.
Qed.

Lemma compare_trans (a b c : string) :
  String.compare a b = Lt -> String.compare b c = Lt -> String.compare a c = Lt.
Proof.
  intros H1 H2.
  exact (@RelationClasses.StrictOrder_Transitive _ _
           OrdersEx.String_as_OT.lt_strorder a b c H1 H2).
Qed.

Lemma str_le_refl (s : string) : str_le s s.
Proof. unfold str_le, String.leb. rewrite compare_refl. reflexivity. Qed.

Lemma str_lt_le (s t : string) : str_lt s t -> str_le s t.
Proof. unfold str_lt, str_le, String.ltb, String.leb. destruct (String.compare s t); congruence. Qed.

Lemma str_le_trans (a b c : string) : str_le a b -> str_le b c -> str_le a c.
Proof.
  unfold str_le, String.leb. intros H1 H2.
  destruct (String.compare a b) eqn:E1; try discriminate;
    destruct (String.compare b c) eqn:E2; try discriminate.
  - apply String.compare_eq_iff in E1, E2. subst. rewrite compare_refl. reflexivity.
  - apply String.compare_eq_iff in E1. subst. rewrite E2. reflexivity.
  - apply String.compare_eq_iff in E2. subst. rewrite E1. reflexivity.
  - rewrite (compare_trans _ _ _ E1 E2). reflexivity.
Qed.

Lemma str_le_neq_lt (s t : string) : str_le s t -> s <> t -> str_lt s t.
Proof.
  unfold str_le, str_lt, String.leb, String.ltb. intros H N.
  destruct (String.compare s t) eqn:E; try congruence.
  apply String.compare_eq_iff in E. contradiction.
Qed.

End StringFacts.

(** ** Objects and properties *)

Section ObjectFacts.

Lemma assoc_get_set (k k' : string) (v : json) (l : list (string * json)) :
  assoc_get k' (assoc_set k v l) =
  if String.eqb k' k then Some v else assoc_get k' l.
Proof.
  induction l as [|[k0 v0] l IH]; simpl.
  - destruct (String.eqb k' k); reflexivity.
  - destruct (String.eqb k k0) eqn:E; simpl.
    + apply String.eqb_eq in E. subst k0.
      destruct (String.eqb k' k); reflexivity.
    + destruct (String.eqb k' k0) eqn:E'.
      * apply String.eqb_eq in E'. subst k0.
        rewrite String.eqb_sym, E. reflexivity.
      * exact IH.
Qed.

Lemma get_set (o : obj) (k k' : string) (v : json) :
  get (set o k v) k' = if String.eqb k' k then Some v else get o k'.
Proof. unfold get, set. simpl. apply assoc_get_set. Qed.

Lemma get_set_same (o : obj) (k : string) (v : json) :
  get (set o k v) k = Some v.
Proof. rewrite get_set, String.eqb_refl. reflexivity. Qed.

Lemma get_set_other (o : obj) (k k' : string) (v : json) :
  k' <> k -> get (set o k v) k' = get o k'.
Proof.
  intros N. rewrite get_set.
  destruct (String.eqb k' k) eqn:E; [apply String.eqb_eq in E; contradiction | reflexivity].
Qed.

Lemma obj_items_set (o : obj) (k : string) (v : json) :
  obj_items (set o k v) = obj_items o.
Proof. reflexivity. Qed.

Lemma assoc_get_app (k : string) (l1 l2 : list (string * json)) :
  assoc_get k (l1 ++ l2) =
  match assoc_get k l1 with Some v => Some v | None => assoc_get k l2 end.
Proof.
  induction l1 as [|[k0 v0] l1 IH]; simpl; [reflexivity|].
  destruct (String.eqb k k0); [reflexivity | exact IH].
Qed.

Lemma index_name_digit (i : nat) :
  exists c r, index_name i = String c r /\ is_digit c = true.
Proof.
  unfold index_name, Number_toString.
  destruct (Z.of_nat i) as [|p|p] eqn:E; [| |lia]; simpl.
  - exists "0"%char, "". split; reflexivity.
  - unfold NilZero.string_of_uint.
    destruct (Pos.to_uint p) as [|d|d|d|d|d|d|d|d|d|d]; simpl; eauto.
Qed.

Lemma named_not_index (k : string) (i : nat) :
  named k = true -> String.eqb k (index_name i) = false.
Proof.
  intros H. destruct (index_name_digit i) as [c [r [E D]]].
  destruct (String.eqb k (index_name i)) eqn:Q; [|reflexivity].
  apply String.eqb_eq in Q. rewrite Q, E in H. simpl in H.
  rewrite D in H. discriminate.
Qed.

Lemma assoc_get_indices (k : string) (items : list json) (n : nat) :
  named k = true ->
  assoc_get k (combine (map index_name (seq n (List.length items))) items) = None.
Proof.
  intros H. revert n. induction items as [|x items IH]; intros n; simpl; [reflexivity|].
  rewrite named_not_index by exact H. apply IH.
Qed.

(** Spreading keeps every named property. *)
Lemma get_spread (o : obj) (k : string) :
  named k = true -> get (spread o) k = get o k.
Proof.
  intros H. unfold spread, get. destruct (obj_items o) as [items|]; simpl; [|reflexivity].
  rewrite assoc_get_app, assoc_get_indices by exact H. reflexivity.
Qed.

Lemma of_json_to_json (o : obj) :
  obj_items o = None -> of_json (to_json o) = Some o.
Proof. destruct o as [[items|] props]; simpl; [discriminate | reflexivity]. Qed.

Lemma text_or_empty_string (s : string) : text_or_empty (Some (JStr s)) = s.
Proof. destruct s; reflexivity. Qed.

End ObjectFacts.

(** ** Keys and the store *)

Section StoreFacts.

Lemma key_eqb_eq : forall a b : key, key_eqb a b = true <-> a = b.
Proof.
  fix IH 1. intros [x|x|l] [y|y|m]; simpl;
    try (split; [discriminate | intros H; discriminate H]).
  - rewrite Z.eqb_eq. split; congruence.
  - rewrite String.eqb_eq. split; congruence.
  - revert m. induction l as [|a l IHl]; intros [|b m];
      try (split; [discriminate | intros H; discriminate H]).
    + split; reflexivity.
    + rewrite andb_true_iff, (IH a b), (IHl m). split.
      * intros [-> H]. injection H as ->. reflexivity.
      * intros H. injection H as -> ->. split; reflexivity.
Qed.

Lemma key_eqb_refl (k : key) : key_eqb k k = true.
Proof. apply key_eqb_eq. reflexivity. Qed.

Lemma key_eqb_neq (a b : key) : key_eqb a b = false <-> a <> b.
Proof.
  destruct (key_eqb a b) eqn:E.
  - apply key_eqb_eq in E. split; [discriminate | contradiction].
  - split; [|reflexivity]. intros _ H. apply key_eqb_eq in H. congruence.
Qed.

Lemma at_key_true (k : key) (o : obj) :
  at_key k o = true <-> key_at o = Some k.
Proof.
  unfold at_key. destruct (key_at o) as [k'|].
  - rewrite key_eqb_eq. split; congruence.
  - split; discriminate.
Qed.

Lemma store_get_some (k : key) (st : store) (o : obj) :
  store_get k st = Some o -> In o st /\ key_at o = Some k.
Proof.
  unfold store_get. intros H. apply find_some in H.
  destruct H as [H1 H2]. apply at_key_true in H2. auto.
Qed.

Lemma store_get_none (k : key) (st : store) :
  store_get k st = None <-> forall o, In o st -> key_at o <> Some k.
Proof.
  unfold store_get. split.
  - intros H o Ho E. apply at_key_true in E.
    pose proof (find_none _ _ H o Ho). congruence.
  - intros H. destruct (find (at_key k) st) as [o|] eqn:E; [|reflexivity].
    apply find_some in E. destruct E as [E1 E2].
    apply at_key_true in E2. exfalso. exact (H o E1 E2).
Qed.

Lemma in_store_delete (k : key) (st : store) (o : obj) :
  In o (store_delete k st) <-> In o st /\ key_at o <> Some k.
Proof.
  unfold store_delete. rewrite filter_In, negb_true_iff.
  split; intros [H1 H2]; split; auto.
  - intros E. apply at_key_true in E. congruence.
  - destruct (at_key k o) eqn:E; [|reflexivity].
    apply at_key_true in E. contradiction.
Qed.

Lemma store_get_delete (k : key) (st : store) :
  store_get k (store_delete k st) = None.
Proof.
  apply store_get_none. intros o H. apply in_store_delete in H. tauto.
Qed.

Lemma store_delete_absent (k : key) (st : store) :
  store_get k st = None -> store_delete k st = st.
Proof.
  rewrite store_get_none. unfold store_delete.
  induction st as [|o st IH]; intros H; simpl; [reflexivity|].
  destruct (at_key k o) eqn:E; simpl.
  - apply at_key_true in E. exfalso. exact (H o (or_introl eq_refl) E).
  - f_equal. apply IH. intros x Hx. apply H. right. exact Hx.
Qed.

Lemma store_delete_idem (k : key) (st : store) :
  store_delete k (store_delete k st) = store_delete k st.
Proof. apply store_delete_absent, store_get_delete. Qed.

(** Inserting puts the record somewhere in the list and moves nothing. *)
Lemma store_insert_split (k : key) (o : obj) (st : store) :
  exists l1 l2, st = (l1 ++ l2)%list /\ store_insert k o st = (l1 ++ o :: l2)%list.
Proof.
  induction st as [|o' st [l1 [l2 [E1 E2]]]]; simpl.
  - exists [], []. split; reflexivity.
  - destruct (key_at o') as [k'|]; [destruct (key_compare k k')|].
    1,2,4: exists [], (o' :: st); split; reflexivity.
    exists (o' :: l1), l2. simpl. split; congruence.
Qed.

Lemma store_insert_perm (k : key) (o : obj) (st : store) :
  Permutation (store_insert k o st) (o :: st).
Proof.
  destruct (store_insert_split k o st) as [l1 [l2 [-> ->]]].
  symmetry. apply Permutation_middle.
Qed.

Lemma in_store_insert (k : key) (o x : obj) (st : store) :
  In x (store_insert k o st) <-> x = o \/ In x st.
Proof.
  split; intros H.
  - apply (Permutation_in _ (store_insert_perm k o st)) in H.
    destruct H; auto.
  - apply (Permutation_in _ (Permutation_sym (store_insert_perm k o st))).
    destruct H; [left | right]; auto.
Qed.

Lemma find_app_left {A} (f : A -> bool) (l1 l2 : list A) :
  find f (l1 ++ l2)%list =
  match find f l1 with Some x => Some x | None => find f l2 end.
Proof.
  induction l1 as [|a l1 IH]; simpl; [reflexivity|].
  destruct (f a); [reflexivity | exact IH].
Qed.

Lemma store_get_insert_same (k : key) (o : obj) (st : store) :
  key_at o = Some k -> store_get k st = None ->
  store_get k (store_insert k o st) = Some o.
Proof.
  intros Ho Hst. destruct (store_insert_split k o st) as [l1 [l2 [E1 E2]]].
  rewrite E2. subst st. unfold store_get in *.
  rewrite find_app_left in *.
  destruct (find (at_key k) l1); [discriminate|]. simpl.
  apply at_key_true in Ho. rewrite Ho. reflexivity.
Qed.

Lemma store_get_insert_other (k k' : key) (o : obj) (st : store) :
  key_at o = Some k -> k' <> k ->
  store_get k' (store_insert k o st) = store_get k' st.
Proof.
  intros Ho N. destruct (store_insert_split k o st) as [l1 [l2 [E1 E2]]].
  rewrite E2. subst st. unfold store_get.
  rewrite !find_app_left. simpl.
  destruct (at_key k' o) eqn:E; [|reflexivity].
  apply at_key_true in E. congruence.
Qed.

Lemma store_get_delete_other (k k' : key) (st : store) :
  k' <> k -> store_get k' (store_delete k st) = store_get k' st.
Proof.
  intros N. unfold store_get, store_delete.
  induction st as [|o st IH]; simpl; [reflexivity|].
  destruct (at_key k o) eqn:E; simpl.
  - destruct (at_key k' o) eqn:E'; [|exact IH].
    apply at_key_true in E, E'. congruence.
  - destruct (at_key k' o); [reflexivity | exact IH].
Qed.

End StoreFacts.

(** ** The order of keys *)

Section KeyOrderFacts.

Lemma key_compare_refl : forall k : key, key_compare k k = Eq.
Proof.
  fix IH 1. intros [x|x|l]; simpl.
  - apply Z.compare_refl.
  - apply compare_refl.
  - induction l as [|a l IHl]; [reflexivity|].
    rewrite (IH a). exact IHl.
Qed.

Lemma key_compare_eq : forall a b : key, key_compare a b = Eq -> a = b.
Proof.
  fix IH 1. intros [x|x|l] [y|y|m]; simpl; try discriminate.
  - intros H. apply Z.compare_eq in H. congruence.
  - intros H. apply String.compare_eq_iff in H. congruence.
  - revert m. induction l as [|a l IHl]; intros [|b m]; try discriminate.
    + reflexivity.
    + destruct (key_compare a b) eqn:E; try discriminate.
      intros H. apply IH in E. apply IHl in H. congruence.
Qed.

Lemma key_compare_antisym :
  forall a b : key, key_compare a b = CompOpp (key_compare b a).
Proof.
  fix IH 1. intros [x|x|l] [y|y|m]; simpl; try reflexivity.
  - apply Z.compare_antisym.
  - apply String.compare_antisym.
  - revert m. induction l as [|a l IHl]; intros [|b m]; try reflexivity.
    rewrite (IH a b). destruct (key_compare b a); simpl; auto.
Qed.

Lemma key_compare_trans :
  forall a b c : key,
    key_compare a b = Lt -> key_compare b c = Lt -> key_compare a c = Lt.
Proof.
  fix IH 1. intros [x|x|l] [y|y|m] [z|z|n]; simpl; try discriminate; try reflexivity.
  - rewrite !Z.compare_lt_iff. lia.
  - apply compare_trans.
  - revert m n. induction l as [|a l IHl]; intros [|b m] [|c n];
      try discriminate; try reflexivity.
    destruct (key_compare a b) eqn:Eab; try discriminate;
      destruct (key_compare b c) eqn:Ebc; try discriminate.
    + apply key_compare_eq in Eab, Ebc. subst. rewrite key_compare_refl.
      apply IHl.
    + apply key_compare_eq in Eab. subst. rewrite Ebc. reflexivity.
    + apply key_compare_eq in Ebc. subst. rewrite Eab. reflexivity.
    + rewrite (IH a b c Eab Ebc). reflexivity.
Qed.

Lemma key_lt_trans (a b c : obj) : key_lt a b -> key_lt b c -> key_lt a c.
Proof.
  unfold key_lt.
  destruct (key_at a), (key_at b), (key_at c); try tauto.
  apply key_compare_trans.
Qed.

Lemma key_lt_neq (a b : obj) (k : key) :
  key_lt a b -> key_at a = Some k -> key_at b <> Some k.
Proof.
  unfold key_lt. intros H E1 E2. rewrite E1, E2, key_compare_refl in H. discriminate.
Qed.

Lemma key_lt_neq_r (a b : obj) (k : key) :
  key_lt a b -> key_at b = Some k -> key_at a <> Some k.
Proof.
  unfold key_lt. intros H E1 E2. rewrite E1, E2, key_compare_refl in H. discriminate.
Qed.

(** Deleting keeps the order. *)
Lemma store_delete_ordered (k : key) (st : store) :
  key_ordered st -> key_ordered (store_delete k st).
Proof.
  intros [Hs Hk]. unfold store_delete. split.
  - induction Hs as [|x l Hs IH Hx]; simpl; [constructor|].
    inversion Hk; subst.
    destruct (negb (at_key k x)); [|auto].
    constructor; [auto|].
    apply Forall_forall. intros y Hy. apply filter_In in Hy.
    exact (proj1 (Forall_forall _ _) Hx y (proj1 Hy)).
  - apply Forall_forall. intros y Hy. apply filter_In in Hy.
    exact (proj1 (Forall_forall _ _) Hk y (proj1 Hy)).
Qed.

(** Inserting under a key that is free keeps the order. *)
Lemma store_insert_ordered (k : key) (o : obj) (st : store) :
  key_at o = Some k -> store_get k st = None ->
  key_ordered st -> key_ordered (store_insert k o st).
Proof.
  intros Ho Hfree [Hs Hk]. split.
  - revert Hfree Hk. induction Hs as [|x l Hs IH Hx]; intros Hfree Hk; simpl.
    + constructor; constructor.
    + inversion Hk as [|? ? Hkx Hkl]; subst.
      rewrite store_get_none in Hfree.
      destruct (key_at x) as [kx|] eqn:Ex; [|contradiction].
      destruct (key_compare k kx) eqn:E.
      * apply key_compare_eq in E. subst kx.
        exfalso. exact (Hfree x (or_introl eq_refl) Ex).
      * assert (L : key_lt o x) by (unfold key_lt; rewrite Ho, Ex; exact E).
        constructor; [constructor; assumption|].
        constructor; [exact L|].
        eapply Forall_impl; [|exact Hx].
        intros y Hy. exact (key_lt_trans _ _ _ L Hy).
      * constructor.
        -- apply IH; [|exact Hkl].
           apply store_get_none. intros y Hy. apply Hfree. right. exact Hy.
        -- apply Forall_forall. intros y Hy. apply in_store_insert in Hy.
           destruct Hy as [->|Hy]; [|exact (proj1 (Forall_forall _ _) Hx y Hy)].
           unfold key_lt. rewrite Ex, Ho, key_compare_antisym, E. reflexivity.
  - apply Forall_forall. intros y Hy. apply in_store_insert in Hy.
    destruct Hy as [->|Hy]; [congruence|].
    exact (proj1 (Forall_forall _ _) Hk y Hy).
Qed.

Lemma store_put_ordered (o : obj) (st st' : store) :
  key_ordered st -> store_put o st = Ok st' -> key_ordered st'.
Proof.
  intros Hs. unfold store_put. destruct (key_at o) as [k|] eqn:Ho; [|discriminate].
  intros H. injection H as <-.
  apply store_insert_ordered;
    [exact Ho | apply store_get_delete | apply store_delete_ordered, Hs].
Qed.

Lemma store_add_ordered (o : obj) (st st' : store) :
  key_ordered st -> store_add o st = Ok st' -> key_ordered st'.
Proof.
  intros Hs. unfold store_add. destruct (key_at o) as [k|] eqn:Ho; [|discriminate].
  destruct (store_get k st) eqn:G; [discriminate|].
  intros H. injection H as <-.
  apply store_insert_ordered; assumption.
Qed.

(** In a store in key order no two records share a key. *)
Lemma key_ordered_one_per_key (st : store) :
  key_ordered st -> NoDup (map key_at st).
Proof.
  intros [Hs Hk]. induction Hs as [|x l Hs IH Hx]; simpl; [constructor|].
  inversion Hk as [|? ? Hkx Hkl]; subst.
  constructor; [|auto].
  intros Hin. apply in_map_iff in Hin. destruct Hin as [y [E Hy]].
  destruct (key_at x) as [kx|] eqn:Ex; [|contradiction].
  exact (key_lt_neq x y kx (proj1 (Forall_forall _ _) Hx y Hy) Ex E).
Qed.

(** Putting back a record of a store in key order gives the same store. *)
Lemma store_put_back (k : key) (o : obj) (st : store) :
  key_ordered st -> In o st -> key_at o = Some k ->
  store_insert k o (store_delete k st) = st.
Proof.
  intros [Hs Hk]. induction Hs as [|x l Hs IH Hx]; intros Hin Ho; [destruct Hin|].
  inversion Hk as [|? ? Hkx Hkl]; subst.
  unfold store_delete. simpl. fold (store_delete k l).
  destruct (at_key k x) eqn:E; simpl.
  - apply at_key_true in E.
    assert (x = o).
    { destruct Hin as [H|H]; [exact H|]. exfalso.
      exact (key_lt_neq x o k (proj1 (Forall_forall _ _) Hx o H) E Ho). }
    subst x.
    rewrite store_delete_absent.
    + destruct l as [|y l]; [reflexivity|]. simpl.
      inversion Hx as [|? ? Hy _]; subst. unfold key_lt in Hy. rewrite Ho in Hy.
      destruct (key_at y) as [ky|]; [|contradiction]. rewrite Hy. reflexivity.
    + apply store_get_none. intros y Hy.
      exact (key_lt_neq o y k (proj1 (Forall_forall _ _) Hx y Hy) Ho).
  - destruct Hin as [H|H].
    + subst x. apply at_key_true in Ho. congruence.
    + pose proof (proj1 (Forall_forall _ _) Hx o H) as L.
      unfold key_lt in L. rewrite Ho in L.
      destruct (key_at x) as [kx|] eqn:Ex; [|contradiction].
      rewrite key_compare_antisym, L. simpl. f_equal. apply IH; assumption.
Qed.

End KeyOrderFacts.

(** ** Creating and deleting entries *)

Lemma world_eta (w : World) : mkWorld (db w) (ticks w) (draws w) = w.
Proof. destruct w. reflexivity. Qed.

(** C5: when the item of the log form is empty after trimming, the submit
    handler reports that the item is required and changes nothing: no entry
    is added, the stored collection is as before (and neither the clock nor
    the identifier generator has been consulted). *)
Theorem create_blank_item_rejected {host : Host} (form : Fields) (w : World) :
  trim (f_item form) = "" ->
  logForm_submit form w = (Ok ItemRequired, w).
Proof.
  intros H. unfold logForm_submit. rewrite H. reflexivity.
Qed.

Lemma create_blank_item_rejected_witness :
  (trim (f_item (mkFields "   " "Shed" "2" "" "")) = "" /\
   logForm_submit (mkFields "   " "Shed" "2" "" "") sample_world
   = (Ok ItemRequired, sample_world)) /\
  (trim (f_item (mkFields "" "" "" "" "")) = "" /\
   logForm_submit (mkFields "" "" "" "" "") sample_world
   = (Ok ItemRequired, sample_world)).
Proof.
  split; split.
  - reflexivity.
  - apply (create_blank_item_rejected (host := sample_host)). reflexivity.
  - reflexivity.
  - apply (create_blank_item_rejected (host := sample_host)). reflexivity.
Defined.

(** C8: [deleteEntry] succeeds for every id, stored or not; deleting the
    same id again succeeds and changes nothing more; afterwards no stored
    record has that id, and the records under other keys are untouched.
    Deleting an id that is not stored leaves the world as it was. *)
Theorem deleteEntry_idempotent (id : key) (w : World) :
  exists w1,
    deleteEntry id w = (Ok tt, w1) /\
    deleteEntry id w1 = (Ok tt, w1) /\
    store_get id (db w1) = None /\
    (forall o, In o (db w1) -> key_at o <> Some id) /\
    (forall k, k <> id -> store_get k (db w1) = store_get k (db w)) /\
    (store_get id (db w) = None -> w1 = w).
Proof.
  exists (mkWorld (store_delete id (db w)) (ticks w) (draws w)).
  unfold deleteEntry, tx. simpl. repeat split.
  - rewrite store_delete_idem. reflexivity.
  - apply store_get_delete.
  - intros o Ho. apply in_store_delete in Ho. exact (proj2 Ho).
  - intros k N. apply store_get_delete_other, N.
  - intros H. rewrite (store_delete_absent _ _ H). apply world_eta.
Qed.

(** ** Updating an entry *)

Section UpdateFacts.

Context {host : Host}.

Lemma renderMaster_world (w : World) : snd (renderMaster w) = w.
Proof.
  unfold renderMaster, bind, getAllEntries, lift.
  destruct (sort newestFirst (db w)); reflexivity.
Qed.

Lemma renderSearch_world (q : string) (w : World) : snd (renderSearch q w) = w.
Proof.
  unfold renderSearch, bind, getAllEntries, lift, ret.
  destruct (sort newestFirst (db w)); reflexivity.
Qed.

Lemma edited_id (existing : obj) (form : Fields) (now : string) :
  get (edited existing form now) "id" = get existing "id".
Proof.
  unfold edited. rewrite !get_set_other by discriminate.
  apply get_spread. reflexivity.
Qed.

Lemma edited_created_at (existing : obj) (form : Fields) (now : string) :
  get (edited existing form now) "created_at" = get existing "created_at".
Proof.
  unfold edited. rewrite !get_set_other by discriminate.
  apply get_spread. reflexivity.
Qed.

Lemma edited_updated_at (existing : obj) (form : Fields) (now : string) :
  get (edited existing form now) "updated_at" = Some (JStr now).
Proof. unfold edited. apply get_set_same. Qed.

Lemma edited_key (existing : obj) (form : Fields) (now : string) :
  key_at (edited existing form now) = key_at existing.
Proof. unfold key_at. rewrite edited_id. reflexivity. Qed.

(** One run of [saveEdit] on a stored entry with a non-empty item: the
    edited record replaces the existing one, whatever the refresh of the
    views then reports. *)
Lemma saveEdit_run (eId : string) (form : Fields) (q : string) (w : World)
  (existing : obj) :
  store_get (KStr eId) (db w) = Some existing ->
  trim (f_item form) <> "" ->
  exists n,
    saveEdit eId form q w =
    (Ok n,
     mkWorld
       (store_insert (KStr eId) (edited existing form (clock (ticks w)))
          (store_delete (KStr eId) (db w)))
       (S (ticks w)) (draws w)) /\
    (n = Updated \/ n = UpdateFailed).
Proof.
  intros Hget Hitem. apply is_empty_false in Hitem.
  pose proof (store_get_some _ _ _ Hget) as [_ Hkey].
  unfold saveEdit. rewrite Hitem.
  unfold bind at 1. unfold getEntry. rewrite Hget.
  unfold bind at 1. unfold nowISO.
  fold (edited existing form (clock (ticks w))).
  set (r := edited existing form (clock (ticks w))).
  unfold try_catch, bind at 1, putEntry, tx, store_put. simpl db.
  unfold r at 1. rewrite edited_key, Hkey. fold r. simpl ticks. simpl draws.
  set (w1 := mkWorld _ _ _).
  unfold bind at 1.
  pose proof (renderMaster_world w1) as HM.
  destruct (renderMaster w1) as [[l|e] wm]; simpl in HM; subst wm.
  - unfold bind.
    pose proof (renderSearch_world q w1) as HS.
    destruct (renderSearch q w1) as [[l'|e] ws]; simpl in HS; subst ws.
    + exists Updated. split; [reflexivity | auto].
    + exists UpdateFailed. split; [reflexivity | auto].
  - exists UpdateFailed. split; [reflexivity | auto].
Qed.

Lemma store_get_after_put (k : key) (o : obj) (st : store) :
  key_at o = Some k ->
  store_get k (store_insert k o (store_delete k st)) = Some o.
Proof.
  intros H. apply store_get_insert_same; [exact H | apply store_get_delete].
Qed.

End UpdateFacts.

Lemma sample_clock_monotone : monotone_clock sample_host.
Proof.
  intros i j H. simpl.
  destruct i as [|[|[|i]]]; destruct j as [|[|[|j]]]; try lia; reflexivity.
Qed.

(** C6 (amended): on a stored entry, [saveEdit] with a non-empty trimmed
    item writes a record with the same [id] and the same [created_at] and
    with [updated_at] set to the reading of the clock; a second [saveEdit]
    keeps both again, and, the clock never running backwards, its
    [updated_at] is at least the first one.  Both are at least the original
    [created_at] when that was not later than the first reading of the
    clock. *)
Theorem saveEdit_twice {host : Host} (eId : string) (form1 form2 : Fields)
  (q1 q2 : string) (w : World) (existing : obj) :
  monotone_clock host ->
  store_get (KStr eId) (db w) = Some existing ->
  trim (f_item form1) <> "" ->
  trim (f_item form2) <> "" ->
  exists n1 w1 r1 n2 w2 r2 u1 u2,
    saveEdit eId form1 q1 w = (Ok n1, w1) /\
    store_get (KStr eId) (db w1) = Some r1 /\
    saveEdit eId form2 q2 w1 = (Ok n2, w2) /\
    store_get (KStr eId) (db w2) = Some r2 /\
    get r1 "id" = get existing "id" /\
    get r2 "id" = get existing "id" /\
    get r1 "created_at" = get existing "created_at" /\
    get r2 "created_at" = get existing "created_at" /\
    get r1 "updated_at" = Some (JStr u1) /\ u1 = clock (ticks w) /\
    get r2 "updated_at" = Some (JStr u2) /\ u2 = clock (ticks w1) /\
    str_le u1 u2 /\
    (forall created,
        get existing "created_at" = Some (JStr created) ->
        str_le created u1 -> str_le created u2).
Proof.
  intros Hmono Hget H1 H2.
  destruct (saveEdit_run eId form1 q1 w existing Hget H1) as [n1 [E1 _]].
  pose proof (store_get_some _ _ _ Hget) as [_ Hkey].
  set (r1 := edited existing form1 (clock (ticks w))) in *.
  set (w1 := mkWorld _ _ _) in E1.
  assert (G1 : store_get (KStr eId) (db w1) = Some r1).
  { apply store_get_after_put. unfold r1. rewrite edited_key. exact Hkey. }
  destruct (saveEdit_run eId form2 q2 w1 r1 G1 H2) as [n2 [E2 _]].
  set (r2 := edited r1 form2 (clock (ticks w1))) in *.
  set (w2 := mkWorld _ _ _) in E2.
  assert (G2 : store_get (KStr eId) (db w2) = Some r2).
  { apply store_get_after_put. unfold r2, r1. rewrite !edited_key. exact Hkey. }
  assert (L : str_le (clock (ticks w)) (clock (ticks w1))).
  { apply Hmono. simpl. lia. }
  exists n1, w1, r1, n2, w2, r2, (clock (ticks w)), (clock (ticks w1)).
  repeat match goal with |- _ /\ _ => split end;
    try assumption; try reflexivity.
  - apply edited_id.
  - unfold r2, r1. rewrite !edited_id. reflexivity.
  - apply edited_created_at.
  - unfold r2, r1. rewrite !edited_created_at. reflexivity.
  - apply edited_updated_at.
  - apply edited_updated_at.
  - intros created _ Hpast. exact (str_le_trans _ _ _ Hpast L).
Qed.

Lemma saveEdit_twice_witness :
  exists n1 w1 r1 n2 w2 r2 u1 u2,
    saveEdit "a" (mkFields " Drill " "Shed" "" "" "") "" sample_world = (Ok n1, w1) /\
    store_get (KStr "a") (db w1) = Some r1 /\
    saveEdit "a" (mkFields "Cordless drill" "Shed" "1" "" "") "" w1 = (Ok n2, w2) /\
    store_get (KStr "a") (db w2) = Some r2 /\
    get r1 "id" = get drill "id" /\
    get r2 "id" = get drill "id" /\
    get r1 "created_at" = get drill "created_at" /\
    get r2 "created_at" = get drill "created_at" /\
    get r1 "updated_at" = Some (JStr u1) /\ u1 = clock (ticks sample_world) /\
    get r2 "updated_at" = Some (JStr u2) /\ u2 = clock (ticks w1) /\
    str_le u1 u2 /\
    (forall created,
        get drill "created_at" = Some (JStr created) ->
        str_le created u1 -> str_le created u2).
Proof.
  apply (saveEdit_twice (host := sample_host)).
  - exact sample_clock_monotone.
  - reflexivity.
  - discriminate.
  - discriminate.
Defined.

(** C6, as stated, fails for an entry whose [created_at] is later than the
    clock: such an entry is stored by importing [from_the_future], and a
    [saveEdit] of it stores an [updated_at] that is below its [created_at],
    although the clock is monotone. *)
Lemma saveEdit_updated_before_created :
  monotone_clock sample_host /\
  exists w0 existing w1 r1,
    importJSON (Doc (JObj [("entries", JArr [from_the_future])])) empty_world
      = (Ok 1, w0) /\
    store_get (KStr "z") (db w0) = Some existing /\
    get existing "created_at" = Some (JStr "2030-01-01T00:00:00.000Z") /\
    saveEdit "z" (mkFields "Hand saw" "" "" "" "") "" w0 = (Ok Updated, w1) /\
    store_get (KStr "z") (db w1) = Some r1 /\
    get r1 "updated_at" = Some (JStr "2026-01-01T00:00:00.000Z") /\
    ~ str_le "2030-01-01T00:00:00.000Z" "2026-01-01T00:00:00.000Z".
Proof.
  split; [exact sample_clock_monotone|].
  eexists _, _, _, _.
  repeat match goal with |- _ /\ _ => split end;
    try (vm_compute; reflexivity).
  vm_compute. discriminate.
Qed.

(** ** Import *)

Section ImportFacts.

Context {host : Host}.

Lemma coerced_same (f : string) (e : obj) :
  get (coerced f e) f = Some (JStr (as_text (get e f))).
Proof.
  unfold coerced. destruct (get e f) as [[| | |s| |]|] eqn:E; simpl;
    rewrite ?get_set_same, ?E; reflexivity.
Qed.

Lemma coerced_other (f k : string) (e : obj) :
  k <> f -> get (coerced f e) k = get e k.
Proof.
  intros N. unfold coerced. destruct (is_string (get e f)); [reflexivity|].
  apply get_set_other, N.
Qed.

Lemma coerced_items (f : string) (e : obj) :
  obj_items (coerced f e) = obj_items e.
Proof. unfold coerced. destruct (is_string (get e f)); reflexivity. Qed.

(** [coerce] throws exactly where the field holds a value that cannot be
    printed. *)
Lemma coerce_run (f : string) (e : obj) :
  coerce f e =
  if field_printable (get e f) then Ok (coerced f e) else Throw TypeError.
Proof.
  unfold coerce, coerced, String_of, field_printable.
  destruct (get e f) as [[|b|n|s|l|fs]|]; try reflexivity; simpl is_string; cbv iota.
  - destruct (printable (JArr l)); reflexivity.
  - destruct (printable (JObj fs)); reflexivity.
Qed.

Lemma has_set_other (e : obj) (k k' : string) (v : json) :
  k' <> k -> has (set e k v) k' = has e k'.
Proof. intros N. unfold has. rewrite get_set_other by exact N. reflexivity. Qed.

Lemma get_if_set (c : bool) (e : obj) (k k' : string) (v : json) :
  get (if c then e else set e k v) k' =
  if String.eqb k' k then (if c then get e k' else Some v) else get e k'.
Proof.
  destruct c; [destruct (String.eqb k' k); reflexivity | apply get_set].
Qed.

(** The conversions of the loop run on the element with its [id],
    [created_at] and [updated_at] set: they throw, or all five return. *)
Lemma coerce_all (e : obj) (k : obj -> M unit) (w : World) :
  (e <- lift (coerce "item" e) ;;
   e <- lift (coerce "location" e) ;;
   e <- lift (coerce "inventory" e) ;;
   e <- lift (coerce "date" e) ;;
   e <- lift (coerce "notes" e) ;;
   k e) w =
  if texts_printable e
  then k (coerced "notes" (coerced "date" (coerced "inventory"
            (coerced "location" (coerced "item" e))))) w
  else (Throw TypeError, w).
Proof.
  unfold texts_printable, text_fields, forallb, bind, lift.
  rewrite coerce_run.
  destruct (field_printable (get e "item")); [|reflexivity].
  rewrite coerce_run, coerced_other by discriminate.
  destruct (field_printable (get e "location")); [|reflexivity].
  rewrite coerce_run, !coerced_other by discriminate.
  destruct (field_printable (get e "inventory")); [|reflexivity].
  rewrite coerce_run, !coerced_other by discriminate.
  destruct (field_printable (get e "date")); [|reflexivity].
  rewrite coerce_run, !coerced_other by discriminate.
  destruct (field_printable (get e "notes")); reflexivity.
Qed.

Lemma texts_printable_frame (e e' : obj) :
  (forall f, In f text_fields -> get e' f = get e f) ->
  texts_printable e' = texts_printable e.
Proof.
  intros H. unfold texts_printable, text_fields, forallb.
  rewrite !H by (simpl; tauto). reflexivity.
Qed.

Ltac frame :=
  let f := fresh "f" in
  let Hf := fresh "Hf" in
  intros f Hf; unfold text_fields in Hf; simpl in Hf;
  rewrite ?get_if_set, ?get_set;
  repeat (destruct Hf as [<- | Hf]; [reflexivity|]); destruct Hf.

(** The loop body draws an identifier only for a falsy [id] and reads
    the clock only for a falsy [created_at]; then it converts the five
    text fields, and throws where one of them cannot be printed, or else
    puts the completed element. *)
Lemma importJSON_entry_run (e : obj) (w : World) :
  importJSON_entry e w =
  let w' :=
    mkWorld (db w)
      (if truthy (get e "created_at") then ticks w else S (ticks w))
      (if truthy (get e "id") then draws w else S (draws w)) in
  if texts_printable e
  then putEntry (completed e (uuids (draws w)) (clock (ticks w))) w'
  else (Throw TypeError, w').
Proof.
  cbv zeta. unfold importJSON_entry, completed.
  destruct (truthy (get e "id")) eqn:Eid.
  - unfold bind at 1, ret at 1.
    destruct (truthy (get e "created_at")) eqn:Ec.
    + unfold bind at 1, ret at 1. cbv zeta.
      rewrite coerce_all, (texts_printable_frame e) by frame.
      rewrite world_eta. reflexivity.
    + unfold bind at 1, bind at 1, nowISO, ret at 1. cbv zeta.
      rewrite coerce_all, (texts_printable_frame e) by frame. reflexivity.
  - unfold bind at 1, bind at 1, uuid, ret at 1.
    rewrite get_set_other by discriminate.
    destruct (truthy (get e "created_at")) eqn:Ec.
    + unfold bind at 1, ret at 1. cbv zeta.
      rewrite coerce_all, (texts_printable_frame e) by frame. reflexivity.
    + unfold bind at 1, bind at 1, nowISO, ret at 1. cbv zeta.
      rewrite coerce_all, (texts_printable_frame e) by frame. reflexivity.
Qed.

Ltac stages :=
  unfold completed, has;
  rewrite ?coerced_other by discriminate;
  rewrite ?get_if_set; cbn [String.eqb Ascii.eqb Bool.eqb andb];
  rewrite ?get_if_set; cbn [String.eqb Ascii.eqb Bool.eqb andb].

Lemma completed_id (e : obj) (id now : string) :
  get (completed e id now) "id" =
  if truthy (get e "id") then get e "id" else Some (JStr id).
Proof. stages. reflexivity. Qed.

Lemma completed_created_at (e : obj) (id now : string) :
  get (completed e id now) "created_at" =
  if truthy (get e "created_at") then get e "created_at" else Some (JStr now).
Proof. stages. reflexivity. Qed.

Lemma completed_updated_at (e : obj) (id now : string) :
  get (completed e id now) "updated_at" =
  if has e "updated_at" then get e "updated_at" else Some JNull.
Proof. stages. unfold has. destruct (get e "updated_at"); reflexivity. Qed.

Lemma completed_text (e : obj) (id now f : string) :
  In f text_fields ->
  get (completed e id now) f = Some (JStr (as_text (get e f))).
Proof.
  intros H. unfold completed.
  repeat (destruct H as [<- | H];
          [rewrite ?coerced_other by discriminate; rewrite coerced_same;
           rewrite ?coerced_other by discriminate;
           rewrite ?get_if_set; reflexivity|]).
  destruct H.
Qed.

Lemma completed_other (e : obj) (id now k : string) :
  ~ In k ("id" :: "created_at" :: "updated_at" :: text_fields) ->
  get (completed e id now) k = get e k.
Proof.
  intros H. unfold completed.
  rewrite !coerced_other by (intros ->; apply H; simpl; tauto).
  rewrite !get_if_set.
  repeat match goal with
         | |- context [String.eqb k ?x] =>
             let E := fresh in
             destruct (String.eqb k x) eqn:E;
             [apply String.eqb_eq in E; subst k; exfalso; apply H; simpl; tauto|]
         end.
  reflexivity.
Qed.

Lemma completed_items (e : obj) (id now : string) :
  obj_items (completed e id now) = obj_items e.
Proof.
  unfold completed. rewrite !coerced_items.
  repeat match goal with
         | |- context [if ?c then _ else _] => destruct c
         end; reflexivity.
Qed.

End ImportFacts.

Lemma importJSON_loop_skips {host : Host} (payload : list json) (w : World) :
  importJSON_loop payload w = importJSON_loop (filter is_record payload) w.
Proof.
  revert w. induction payload as [|v payload IH]; intros w; [reflexivity|].
  unfold is_record. simpl. destruct (of_json v) as [e|] eqn:E; [|apply IH].
  simpl. rewrite E. unfold bind.
  destruct (importJSON_entry e w) as [[[]|x] w1]; [apply IH | reflexivity].
Qed.

(** C1 (amended): [importJSON] skips the elements of [entries] that are
    not objects: its effect is that of the loop over the records alone.
    When no put throws, the value it returns is the length of the whole
    [entries] array, the skipped elements included. *)
Theorem importJSON_returns_length {host : Host} (parsed : json)
  (payload : list json) (w : World) :
  entries_of parsed = Some payload ->
  importJSON (Doc parsed) w =
  (match fst (importJSON_loop (filter is_record payload) w) with
   | Ok _ => Ok (List.length payload)
   | Throw e => Throw e
   end,
   snd (importJSON_loop (filter is_record payload) w)).
Proof.
  intros E. unfold importJSON. simpl. rewrite E. unfold bind, ret.
  rewrite importJSON_loop_skips.
  destruct (importJSON_loop (filter is_record payload) w) as [[[]|e] w1]; reflexivity.
Qed.

Lemma importJSON_returns_length_witness :
  entries_of (JObj [("exported_at", JStr "x"); ("entries", JArr [JNull; JObj []; JNum 7])])
  = Some [JNull; JObj []; JNum 7] /\
  importJSON
    (Doc (JObj [("exported_at", JStr "x"); ("entries", JArr [JNull; JObj []; JNum 7])]))
    empty_world =
  (match fst (importJSON_loop (filter is_record [JNull; JObj []; JNum 7]) empty_world) with
   | Ok _ => Ok (List.length [JNull; JObj []; JNum 7])
   | Throw e => Throw e
   end,
   snd (importJSON_loop (filter is_record [JNull; JObj []; JNum 7]) empty_world)).
Proof.
  split; [reflexivity|].
  apply (importJSON_returns_length (host := sample_host)). reflexivity.
Defined.

(** C1, as stated, fails on [{"entries": [null, {}]}]: the [null] is
    skipped and one record is processed and stored, yet the value returned
    is 2. *)
Lemma importJSON_counts_skipped :
  exists w1 r,
    importJSON (Doc (JObj [("entries", JArr [JNull; JObj []])])) empty_world
    = (Ok 2, w1) /\
    db w1 = [r] /\
    records_processed [JNull; JObj []] = 1 /\
    2 <> records_processed [JNull; JObj []].
Proof. eexists _, _. repeat split. discriminate. Qed.

(** C2 (amended): the loop of [importJSON] completes a record before it
    puts it.  A falsy [id] (a missing one in particular) is replaced by the
    next value of the identifier generator, which is then used up: a
    generator that never repeats gives no other record this value.  A falsy
    [created_at] is replaced by the reading of the clock, a missing
    [updated_at] by [null]; each of [item], [location], [inventory],
    [date], [notes] becomes text: kept when it is text, empty when it is
    missing or [null], and otherwise the string JavaScript prints for the
    value.  Every other property is kept.  Where one of the five fields
    holds a value that cannot be printed, the conversion throws a
    TypeError and nothing is put.  The numbers of the element are taken to
    be safe integers.  Importing [{"entries": [{}]}] puts exactly one
    record, with the generated [id] and [created_at], [updated_at] null
    and the five text fields empty. *)
Theorem importJSON_normalizes {host : Host} (e : obj) (w : World) :
  safe_record e = true ->
  (texts_printable e = true ->
   exists e' w',
      importJSON_entry e w = putEntry e' w' /\
      db w' = db w /\
      draws w' = (if truthy (get e "id") then draws w else S (draws w)) /\
      get e' "id" =
        (if truthy (get e "id") then get e "id"
         else Some (JStr (uuids (draws w)))) /\
      (never_repeats host -> truthy (get e "id") = false ->
       forall j, j <> draws w -> get e' "id" <> Some (JStr (uuids j))) /\
      get e' "created_at" =
        (if truthy (get e "created_at") then get e "created_at"
         else Some (JStr (clock (ticks w)))) /\
      get e' "updated_at" =
        (if has e "updated_at" then get e "updated_at" else Some JNull) /\
      (forall f, In f text_fields ->
         get e' f =
         Some (JStr match get e f with
                    | Some (JStr s) => s
                    | None | Some JNull => ""
                    | Some x => ToString x
                    end)) /\
      (forall k, ~ In k ("id" :: "created_at" :: "updated_at" :: text_fields) ->
         get e' k = get e k)) /\
  (texts_printable e = false ->
   exists w', importJSON_entry e w = (Throw TypeError, w') /\ db w' = db w) /\
  importJSON (Doc (JObj [("entries", JArr [JObj []])])) w
  = (Ok 1,
     mkWorld
       (store_insert (KStr (uuids (draws w)))
          (entry (uuids (draws w)) (clock (ticks w)) JNull "" "" "" "" "")
          (store_delete (KStr (uuids (draws w))) (db w)))
       (S (ticks w)) (S (draws w))).
Proof.
  intros _. split; [|split; [|reflexivity]].
  - intros P. eexists _, _.
    split; [rewrite importJSON_entry_run; cbv zeta; rewrite P; reflexivity|].
    split; [reflexivity|]. split; [reflexivity|].
    split; [apply completed_id|].
    split.
    { intros U Eid j Nj. rewrite completed_id, Eid. intros E.
      injection E as E. apply Nj. symmetry. apply U, E. }
    split; [apply completed_created_at|].
    split; [apply completed_updated_at|].
    split; [|apply completed_other].
    intros f Hf. apply completed_text, Hf.
  - intros P. eexists.
    split; [rewrite importJSON_entry_run; cbv zeta; rewrite P; reflexivity|].
    reflexivity.
Qed.

Lemma importJSON_normalizes_witness :
  safe_record untyped = true /\
  texts_printable untyped = true /\
  exists e' w',
    importJSON_entry untyped empty_world = putEntry e' w' /\
    get e' "id" = Some (JStr "id-0") /\
    get e' "created_at" = Some (JStr "2026-01-01T00:00:00.000Z") /\
    get e' "updated_at" = Some JNull /\
    get e' "item" = Some (JStr "5") /\
    get e' "location" = Some (JStr "1,,x") /\
    get e' "inventory" = Some (JStr "[object Object]") /\
    get e' "date" = Some (JStr "true") /\
    get e' "notes" = Some (JStr "").
Proof.
  split; [reflexivity|]. split; [reflexivity|].
  destruct (importJSON_normalizes (host := sample_host) untyped empty_world
              eq_refl) as [H _].
  destruct (H eq_refl) as [e' [w' [E [_ [_ [Hid [_ [Hc [Hu [Ht _]]]]]]]]]].
  exists e', w'. split; [exact E|].
  split; [exact Hid|]. split; [exact Hc|]. split; [exact Hu|].
  split; [exact (Ht "item" (or_introl eq_refl))|].
  split; [exact (Ht "location" (or_intror (or_introl eq_refl)))|].
  split; [exact (Ht "inventory" (or_intror (or_intror (or_introl eq_refl))))|].
  split; [exact (Ht "date"
                   (or_intror (or_intror (or_intror (or_introl eq_refl)))))|].
  exact (Ht "notes"
           (or_intror (or_intror (or_intror (or_intror (or_introl eq_refl)))))).
Defined.

(** C2, as stated, fails where a text field holds a value that is not
    text: importing [{"entries": [{"item": 5}]}] stores the item ["5"], not
    the empty text; and importing [{"entries": [{"item": {"toString":
    1}}]}] stores nothing, the conversion of the item throws. *)
Lemma importJSON_prints_number :
  exists r w1 w2,
    importJSON (Doc (JObj [("entries", JArr [JObj [("item", JNum 5)]])]))
      empty_world = (Ok 1, w1) /\
    db w1 = [r] /\
    is_string (Some (JNum 5)) = false /\
    get r "item" = Some (JStr "5") /\
    get r "item" <> Some (JStr "") /\
    importJSON (Doc (JObj [("entries", JArr [trap])])) empty_world
    = (Throw TypeError, w2) /\
    db w2 = [].
Proof.
  eexists _, _, _.
  repeat match goal with |- _ /\ _ => split end;
    try (vm_compute; reflexivity).
  vm_compute. discriminate.
Qed.

(** ** Sorting *)

Section SortFacts.

Context {A : Type} (cmp : A -> A -> result comparison).

Lemma sort_insert_perm (x : A) (l l' : list A) :
  sort_insert cmp x l = Ok l' -> Permutation l' (x :: l).
Proof.
  revert l'. induction l as [|y l IH]; intros l'; simpl.
  - intros H. injection H as <-. reflexivity.
  - destruct (cmp x y) as [[| |]|e]; try discriminate;
      try (intros H; injection H as <-; reflexivity).
    destruct (sort_insert cmp x l) as [r|e]; [|discriminate].
    intros H. injection H as <-.
    rewrite (IH r eq_refl). apply perm_swap.
Qed.

Lemma sort_perm (l l' : list A) : sort cmp l = Ok l' -> Permutation l' l.
Proof.
  revert l'. induction l as [|x l IH]; intros l'; simpl.
  - intros H. injection H as <-. reflexivity.
  - destruct (sort cmp l) as [r|e]; [|discriminate].
    intros H. apply sort_insert_perm in H. rewrite H, (IH r eq_refl). reflexivity.
Qed.

(** Where the comparator does not throw, the sort returns. *)
Variable P : A -> Prop.
Hypothesis cmp_defined : forall a b, P a -> P b -> exists c, cmp a b = Ok c.

Lemma sort_insert_defined (x : A) (l : list A) :
  P x -> Forall P l -> exists l', sort_insert cmp x l = Ok l'.
Proof.
  intros Hx. induction l as [|y l IH]; intros Hl; simpl; [eauto|].
  inversion Hl as [|? ? Hy Hl']; subst.
  destruct (cmp_defined x y Hx Hy) as [c ->].
  destruct (IH Hl') as [r ->]. destruct c; eauto.
Qed.

Lemma sort_defined (l : list A) :
  Forall P l -> exists l', sort cmp l = Ok l'.
Proof.
  induction l as [|x l IH]; intros Hl; simpl; [eauto|].
  inversion Hl as [|? ? Hx Hl']; subst.
  destruct (IH Hl') as [r E]. rewrite E.
  apply sort_insert_defined; [exact Hx|].
  apply sort_perm in E.
  apply Forall_forall. intros y Hy.
  apply (Forall_forall P l); [exact Hl'|].
  exact (Permutation_in _ E Hy).
Qed.

(** Where the comparator is the reversed code-unit order of a string
    read from the elements, the result is in descending order. *)
Variable field : A -> string.
Hypothesis cmp_field :
  forall a b, P a -> P b -> cmp a b = Ok (String.compare (field b) (field a)).

Let desc (a b : A) : Prop := str_le (field b) (field a).

Lemma sort_insert_sorted (x : A) (l l' : list A) :
  P x -> Forall P l -> StronglySorted desc l ->
  sort_insert cmp x l = Ok l' -> StronglySorted desc l'.
Proof.
  intros Hx. revert l'. induction l as [|y l IH]; intros l' Hl Hs; simpl.
  - intros H. injection H as <-. constructor; constructor.
  - inversion Hl as [|? ? Hy Hl']; subst.
    inversion Hs as [|? ? Hs' Hy']; subst.
    rewrite (cmp_field x y Hx Hy).
    destruct (String.compare (field y) (field x)) eqn:E.
    + intros H. injection H as <-. constructor; [exact Hs|].
      assert (L : str_le (field y) (field x))
        by (unfold str_le, String.leb; rewrite E; reflexivity).
      constructor; [exact L|].
      eapply Forall_impl; [|exact Hy'].
      intros z Hz. exact (str_le_trans _ _ _ Hz L).
    + intros H. injection H as <-. constructor; [exact Hs|].
      assert (L : str_le (field y) (field x))
        by (unfold str_le, String.leb; rewrite E; reflexivity).
      constructor; [exact L|].
      eapply Forall_impl; [|exact Hy'].
      intros z Hz. exact (str_le_trans _ _ _ Hz L).
    + destruct (sort_insert cmp x l) as [r|e] eqn:Er; [|discriminate].
      intros H. injection H as <-.
      constructor; [apply (IH r Hl' Hs' eq_refl)|].
      apply sort_insert_perm in Er.
      apply Forall_forall. intros z Hz.
      apply (Permutation_in _ Er) in Hz. destruct Hz as [<-|Hz].
      * unfold desc, str_le, String.leb.
        rewrite String.compare_antisym, E. reflexivity.
      * exact (proj1 (Forall_forall _ _) Hy' z Hz).
Qed.

Lemma sort_sorted (l l' : list A) :
  Forall P l -> sort cmp l = Ok l' -> StronglySorted desc l'.
Proof.
  revert l'. induction l as [|x l IH]; intros l' Hl; simpl.
  - intros H. injection H as <-. constructor.
  - inversion Hl as [|? ? Hx Hl']; subst.
    destruct (sort cmp l) as [r|e] eqn:E; [|discriminate].
    apply sort_insert_sorted; [exact Hx | | apply (IH r Hl' eq_refl)].
    apply sort_perm in E.
    apply Forall_forall. intros y Hy.
    exact (proj1 (Forall_forall _ _) Hl' y (Permutation_in _ E Hy)).
Qed.

(** Distinct strings in descending order are in strictly descending
    order. *)
Lemma sorted_strict (l : list A) :
  StronglySorted desc l -> NoDup (map field l) ->
  StronglySorted (fun a b => str_lt (field b) (field a)) l.
Proof.
  induction 1 as [|x l Hs IH Hx]; intros Hn; [constructor|].
  simpl in Hn. inversion Hn as [|? ? Hnx Hn']; subst.
  constructor; [apply IH, Hn'|].
  apply Forall_forall. intros y Hy.
  apply str_le_neq_lt; [exact (proj1 (Forall_forall _ _) Hx y Hy)|].
  intros E. apply Hnx. rewrite <- E. apply in_map, Hy.
Qed.

End SortFacts.

(** ** Export *)

Section ExportFacts.

Context {host : Host}.

Lemma newestFirst_strings (a b : obj) :
  is_string (get a "created_at") = true ->
  is_string (get b "created_at") = true ->
  exists c, newestFirst a b = Ok c.
Proof.
  intros Ha Hb. unfold newestFirst.
  destruct (get a "created_at") as [[| | |t| |]|]; try discriminate.
  destruct (get b "created_at") as [[| | |s| |]|]; try discriminate.
  unfold String_of. simpl printable. cbv iota.
  destruct (truthy (Some (JStr t))); eauto.
Qed.

Lemma created_timestamp (o : obj) (s : string) :
  get o "created_at" = Some (JStr s) -> created o = s.
Proof. unfold created. intros ->. apply text_or_empty_string. Qed.

Lemma newestFirst_timestamps (a b : obj) :
  collates_timestamps host ->
  has_timestamp a -> has_timestamp b ->
  newestFirst a b = Ok (String.compare (created b) (created a)).
Proof.
  intros Hc [sa [Ea Ta]] [sb [Eb Tb]].
  rewrite (created_timestamp a sa Ea), (created_timestamp b sb Eb).
  unfold newestFirst. rewrite Ea, Eb. unfold String_of. simpl printable. cbv iota.
  replace (if truthy (Some (JStr sa)) then Ok (ToString (JStr sa)) else Ok "")
    with (Ok (A := string) sa).
  - rewrite (Hc sb sa Tb Ta). reflexivity.
  - simpl. destruct sa; reflexivity.
Qed.

(** [exportJSON] once the sort has returned. *)
Lemma exportJSON_run (w : World) (sorted : list obj) :
  sort newestFirst (db w) = Ok sorted ->
  exportJSON w =
  (Ok (Doc (JObj [("exported_at", JStr (clock (ticks w)));
                  ("entries", JArr (map to_json sorted))])),
   mkWorld (db w) (S (ticks w)) (draws w)).
Proof.
  intros H. unfold exportJSON, bind, getAllEntries, lift. rewrite H. reflexivity.
Qed.

End ExportFacts.

Lemma sample_collates : collates_timestamps sample_host.
Proof. intros s t _ _. reflexivity. Qed.

(** C7: when the stored records carry timestamps in [created_at], and the
    host collates timestamps as every locale does, [exportJSON] returns a
    document that lists all the stored records, each once, sorted
    descending by [created_at]; when the [created_at] values are pairwise
    distinct (as for three entries created at three different times) the
    order is strictly descending, newest first. *)
Theorem exportJSON_newest_first {host : Host} (w : World) :
  collates_timestamps host ->
  Forall has_timestamp (db w) ->
  exists sorted,
    exportJSON w =
    (Ok (Doc (JObj [("exported_at", JStr (clock (ticks w)));
                    ("entries", JArr (map to_json sorted))])),
     mkWorld (db w) (S (ticks w)) (draws w)) /\
    Permutation sorted (db w) /\
    StronglySorted newer_or_same sorted /\
    (NoDup (map created (db w)) -> StronglySorted newer sorted).
Proof.
  intros Hc Hts.
  assert (Hcmp : forall a b, has_timestamp a -> has_timestamp b ->
                   newestFirst a b = Ok (String.compare (created b) (created a)))
    by (intros a b; apply newestFirst_timestamps, Hc).
  destruct (sort_defined newestFirst has_timestamp
              (fun a b Ha Hb => ex_intro _ _ (Hcmp a b Ha Hb)) (db w) Hts)
    as [sorted E].
  pose proof (sort_perm _ _ _ E) as Hp.
  pose proof (sort_sorted newestFirst has_timestamp created Hcmp _ _ Hts E) as Hs.
  exists sorted. split; [apply exportJSON_run, E|].
  split; [exact Hp|]. split; [exact Hs|].
  intros Hn. apply (sorted_strict created); [exact Hs|].
  apply (Permutation_NoDup (l := map created (db w))); [|exact Hn].
  apply Permutation_map. symmetry. exact Hp.
Qed.

Lemma exportJSON_newest_first_witness :
  exists sorted,
    exportJSON sample_world =
    (Ok (Doc (JObj [("exported_at", JStr (clock (ticks sample_world)));
                    ("entries", JArr (map to_json sorted))])),
     mkWorld (db sample_world) (S (ticks sample_world)) (draws sample_world)) /\
    Permutation sorted (db sample_world) /\
    StronglySorted newer_or_same sorted /\
    (NoDup (map created (db sample_world)) -> StronglySorted newer sorted).
Proof.
  apply (exportJSON_newest_first (host := sample_host)).
  - exact sample_collates.
  - repeat constructor; eexists; split; reflexivity.
Defined.

(** The three sample records leave in the order screws, drill, ladder. *)
Example exportJSON_sample :
  exportJSON sample_world =
  (Ok (Doc (JObj [("exported_at", JStr "2026-01-01T00:00:00.000Z");
                  ("entries", JArr (map to_json [screws; drill; ladder]))])),
   mkWorld [drill; screws; ladder] 1 0).
Proof. reflexivity. Qed.


(** The comparator needs strings: with two records whose [created_at] is
    a number, as an import may store them, the sort throws. *)
Example exportJSON_of_numeric_created_at :
  exists w0,
    importJSON
      (Doc (JObj [("entries", JArr [JObj [("created_at", JNum 5)];
                                    JObj [("created_at", JNum 6)]])]))
      empty_world = (Ok 2, w0) /\
    exportJSON w0 = (Throw TypeError, w0).
Proof. eexists. split; reflexivity. Qed.

(** ** Export, then import *)

Section RoundTripFacts.

Context {host : Host}.

Lemma coerced_string (f : string) (e : obj) :
  is_string (get e f) = true -> coerced f e = e.
Proof. unfold coerced. intros ->. reflexivity. Qed.

Lemma is_string_printable (v : value) :
  is_string v = true -> field_printable v = true.
Proof. destruct v as [[| | |s| |]|]; try discriminate; reflexivity. Qed.

(** The text fields of an entry are strings, which print. *)
Lemma is_entry_printable (o : obj) :
  is_entry o = true -> texts_printable o = true.
Proof.
  unfold is_entry, texts_printable. rewrite !andb_true_iff.
  intros [_ H]. rewrite forallb_forall in *.
  intros f Hf. apply is_string_printable, H, Hf.
Qed.

(** The loop of [importJSON] leaves an entry as it is. *)
Lemma completed_entry (o : obj) (id now : string) :
  is_entry o = true -> completed o id now = o.
Proof.
  unfold is_entry. rewrite !andb_true_iff. simpl forallb. rewrite !andb_true_iff.
  intros [[[[[[_ Hid] _] _] Hc] Hu] [Hi [Hl [Hv [Hd [Hn _]]]]]].
  unfold completed. cbv zeta. rewrite Hid, Hc, Hu.
  rewrite (coerced_string "item" o Hi), (coerced_string "location" o Hl),
    (coerced_string "inventory" o Hv), (coerced_string "date" o Hd).
  exact (coerced_string "notes" o Hn).
Qed.

Lemma importJSON_entry_entry (o : obj) (w : World) :
  is_entry o = true -> importJSON_entry o w = putEntry o w.
Proof.
  intros H. rewrite importJSON_entry_run. cbv zeta.
  rewrite is_entry_printable, completed_entry by exact H.
  unfold is_entry in H. rewrite !andb_true_iff in H.
  destruct H as [[[[[[_ Hid] _] _] Hc] _] _].
  rewrite Hid, Hc, world_eta. reflexivity.
Qed.

Lemma is_entry_key (o : obj) :
  is_entry o = true -> exists k, key_at o = Some k.
Proof.
  unfold is_entry. rewrite !andb_true_iff.
  intros [[[[[[_ _] Hk] _] _] _] _].
  destruct (key_at o) as [k|]; [eauto | discriminate].
Qed.

Lemma is_entry_plain (o : obj) : is_entry o = true -> obj_items o = None.
Proof.
  unfold is_entry. rewrite !andb_true_iff.
  intros [[[[[[Hp _] _] _] _] _] _].
  destruct (obj_items o); [discriminate | reflexivity].
Qed.

Lemma is_entry_created (o : obj) :
  is_entry o = true -> is_string (get o "created_at") = true.
Proof.
  unfold is_entry. rewrite !andb_true_iff. tauto.
Qed.

(** Putting back a record the store already holds changes nothing but,
    possibly, its place. *)
Lemma delete_then_cons (k : key) (o : obj) (st : store) :
  one_per_key st -> In o st -> key_at o = Some k ->
  Permutation (o :: store_delete k st) st.
Proof.
  unfold one_per_key. induction st as [|x st IH]; intros Hn Hin Hk; [destruct Hin|].
  simpl in Hn. inversion Hn as [|? ? Hx Hn']; subst.
  unfold store_delete. simpl. fold (store_delete k st).
  destruct (at_key k x) eqn:E; simpl.
  - apply at_key_true in E.
    assert (x = o).
    { destruct Hin as [H|H]; [exact H|]. exfalso. apply Hx.
      rewrite E, <- Hk. apply in_map, H. }
    subst x. rewrite store_delete_absent; [reflexivity|].
    apply store_get_none. intros y Hy Ey. apply Hx.
    rewrite Hk, <- Ey. apply in_map, Hy.
  - destruct Hin as [H|H].
    + subst x. apply at_key_true in Hk. congruence.
    + rewrite perm_swap. apply perm_skip. apply IH; assumption.
Qed.

Lemma put_back (o : obj) (w : World) :
  one_per_key (db w) -> In o (db w) -> is_entry o = true ->
  exists st,
    putEntry o w = (Ok tt, mkWorld st (ticks w) (draws w)) /\
    Permutation st (db w).
Proof.
  intros Hn Hin He. destruct (is_entry_key o He) as [k Hk].
  unfold putEntry, tx, store_put. rewrite Hk.
  eexists. split; [reflexivity|].
  rewrite store_insert_perm. apply delete_then_cons; assumption.
Qed.

Lemma importJSON_loop_back (l : list obj) (w : World) :
  one_per_key (db w) ->
  (forall o, In o l -> In o (db w) /\ is_entry o = true) ->
  exists st,
    importJSON_loop (map to_json l) w = (Ok tt, mkWorld st (ticks w) (draws w)) /\
    Permutation st (db w).
Proof.
  revert w. induction l as [|o l IH]; intros w Hn Hl.
  - exists (db w). simpl. unfold ret. rewrite world_eta. split; reflexivity.
  - destruct (Hl o (or_introl eq_refl)) as [Hin He].
    cbn [map importJSON_loop].
    rewrite (of_json_to_json o (is_entry_plain o He)).
    unfold bind at 1. rewrite (importJSON_entry_entry o w He).
    destruct (put_back o w Hn Hin He) as [st [-> Hp]].
    destruct (IH (mkWorld st (ticks w) (draws w))) as [st' [E Hp']].
    + unfold one_per_key in *. simpl.
      apply (Permutation_NoDup (l := map key_at (db w))); [|exact Hn].
      apply Permutation_map. symmetry. exact Hp.
    + intros x Hx. destruct (Hl x (or_intror Hx)) as [Hx1 Hx2].
      split; [|exact Hx2]. simpl.
      exact (Permutation_in _ (Permutation_sym Hp) Hx1).
    + exists st'. split; [exact E|]. simpl in Hp'.
      exact (Permutation_trans Hp' Hp).
Qed.

End RoundTripFacts.

(** C3: for a store that holds one record per key, all of them entries,
    [exportJSON] returns a document, [importJSON] of that document returns
    the number of entries, and the store afterwards holds the same records
    as before, each once, equal in [id] and in every other field. *)
Theorem import_export_roundtrip {host : Host} (w : World) :
  one_per_key (db w) ->
  forallb is_entry (db w) = true ->
  exists doc w1 w2,
    exportJSON w = (Ok doc, w1) /\
    importJSON doc w1 = (Ok (List.length (db w)), w2) /\
    Permutation (db w2) (db w) /\
    one_per_key (db w2) /\
    (forall k, store_get k (db w2) = store_get k (db w)).
Proof.
  intros Hn He. rewrite forallb_forall in He.
  destruct (sort_defined newestFirst (fun o => is_string (get o "created_at") = true)
              newestFirst_strings (db w)) as [sorted E].
  { apply Forall_forall. intros o Ho. apply is_entry_created, He, Ho. }
  pose proof (sort_perm _ _ _ E) as Hp.
  rewrite (exportJSON_run w sorted E).
  set (w1 := mkWorld (db w) (S (ticks w)) (draws w)).
  destruct (importJSON_loop_back sorted w1) as [st [L Hst]].
  - exact Hn.
  - intros o Ho. pose proof (Permutation_in _ Hp Ho) as Hin. auto.
  - assert (Hk : one_per_key st).
    { unfold one_per_key in *.
      apply (Permutation_NoDup (l := map key_at (db w))); [|exact Hn].
      apply Permutation_map. symmetry. exact Hst. }
    exists (Doc (JObj [("exported_at", JStr (clock (ticks w)));
                       ("entries", JArr (map to_json sorted))])),
      w1, (mkWorld st (ticks w1) (draws w1)).
    split; [reflexivity|].
    split; [|split; [exact Hst | split; [exact Hk|]]].
    + unfold importJSON. simpl. unfold bind. rewrite L. unfold ret.
      rewrite length_map, (Permutation_length Hp). reflexivity.
    + intros k. simpl db.
      destruct (store_get k (db w)) as [o|] eqn:G.
      * apply store_get_some in G. destruct G as [G1 G2].
        destruct (store_get k st) as [o'|] eqn:G'.
        -- apply store_get_some in G'. destruct G' as [G1' G2'].
           f_equal.
           apply (Permutation_in _ Hst) in G1'.
           clear - Hn G1 G2 G1' G2'. unfold one_per_key in Hn.
           induction (db w) as [|x l IH]; [destruct G1|].
           simpl in Hn. inversion Hn as [|? ? Hx Hn']; subst.
           destruct G1 as [->|G1], G1' as [->|G1']; auto.
           ++ exfalso. apply Hx. rewrite G2, <- G2'. apply in_map, G1'.
           ++ exfalso. apply Hx. rewrite G2', <- G2. apply in_map, G1.
        -- exfalso. rewrite store_get_none in G'.
           apply (G' o); [|exact G2].
           exact (Permutation_in _ (Permutation_sym Hst) G1).
      * rewrite store_get_none in *. intros o Ho.
        apply G. exact (Permutation_in _ Hst Ho).
Qed.

Lemma sample_one_per_key : one_per_key (db sample_world).
Proof.
  unfold one_per_key. simpl.
  repeat constructor; simpl; intuition discriminate.
Qed.

Lemma import_export_roundtrip_witness :
  exists doc w1 w2,
    exportJSON sample_world = (Ok doc, w1) /\
    importJSON doc w1 = (Ok (List.length (db sample_world)), w2) /\
    Permutation (db w2) (db sample_world) /\
    one_per_key (db w2) /\
    (forall k, store_get k (db w2) = store_get k (db sample_world)).
Proof.
  apply (import_export_roundtrip (host := sample_host)).
  - exact sample_one_per_key.
  - reflexivity.
Defined.

(** On the sample store the round trip gives back the very same list. *)
Example roundtrip_sample :
  exists doc w1,
    exportJSON sample_world = (Ok doc, w1) /\
    importJSON doc w1 = (Ok 3, mkWorld [drill; screws; ladder] 1 0).
Proof. eexists _, _. split; reflexivity. Qed.


(** The round trip is a property of entries.  An array in [entries] passes
    the guard of [importJSON] and is stored with the properties the loop
    gives it; [exportJSON] writes it by its elements alone, as an empty
    array, and importing that document stores a second record. *)
Example roundtrip_of_array_record :
  exists w0 doc w1 w2 r r',
    importJSON (Doc (JObj [("entries", JArr [JArr []])])) empty_world = (Ok 1, w0) /\
    db w0 = [r] /\ is_entry r = false /\
    exportJSON w0 = (Ok doc, w1) /\
    importJSON doc w1 = (Ok 1, w2) /\
    db w2 = [r; r'] /\ r <> r'.
Proof.
  eexists _, _, _, _, _, _.
  repeat match goal with |- _ /\ _ => split end; try reflexivity.
  discriminate.
Qed.

(** ** The store invariant

    The store stays in key order, one record per key, whatever the program
    does; and the log form, the edit dialog and deletion keep a store of
    entries a store of entries. *)

Section InvariantFacts.

Context {host : Host}.

Lemma tx_ordered (fn : store -> result store) (w : World) :
  (forall st st', key_ordered st -> fn st = Ok st' -> key_ordered st') ->
  key_ordered (db w) -> key_ordered (db (snd (tx fn w))).
Proof.
  intros Hfn Hw. unfold tx. destruct (fn (db w)) as [st|e] eqn:E; simpl; [|exact Hw].
  exact (Hfn _ _ Hw E).
Qed.

Lemma putEntry_ordered (o : obj) (w : World) :
  key_ordered (db w) -> key_ordered (db (snd (putEntry o w))).
Proof. apply tx_ordered, store_put_ordered. Qed.

Lemma addEntry_ordered (o : obj) (w : World) :
  key_ordered (db w) -> key_ordered (db (snd (addEntry o w))).
Proof. apply tx_ordered, store_add_ordered. Qed.

Lemma deleteEntry_ordered (id : key) (w : World) :
  key_ordered (db w) -> key_ordered (db (snd (deleteEntry id w))).
Proof.
  apply tx_ordered. intros st st' Hs H. injection H as <-.
  apply store_delete_ordered, Hs.
Qed.

Lemma importJSON_loop_ordered (payload : list json) (w : World) :
  key_ordered (db w) -> key_ordered (db (snd (importJSON_loop payload w))).
Proof.
  revert w. induction payload as [|v payload IH]; intros w Hw; simpl; [exact Hw|].
  destruct (of_json v) as [e|]; [|apply IH, Hw].
  unfold bind at 1. rewrite importJSON_entry_run. cbv zeta.
  destruct (texts_printable e); [|exact Hw].
  match goal with |- context [putEntry ?o ?w'] =>
    pose proof (putEntry_ordered o w' Hw) as Hp;
    destruct (putEntry o w') as [[[]|e'] w1]
  end; simpl in Hp; [apply IH, Hp | exact Hp].
Qed.

(** [importJSON] keeps the store in key order, also when it throws
    half-way. *)
Lemma importJSON_ordered (jsonText : text) (w : World) :
  key_ordered (db w) -> key_ordered (db (snd (importJSON jsonText w))).
Proof.
  intros Hw. unfold importJSON.
  destruct (JSON_parse jsonText) as [parsed|]; [|exact Hw].
  destruct (entries_of parsed) as [payload|]; [|exact Hw].
  unfold bind. pose proof (importJSON_loop_ordered payload w Hw) as Hp.
  destruct (importJSON_loop payload w) as [[[]|e] w1]; exact Hp.
Qed.

Lemma exportJSON_store (w : World) : db (snd (exportJSON w)) = db w.
Proof.
  unfold exportJSON, bind, getAllEntries, lift.
  destruct (sort newestFirst (db w)); reflexivity.
Qed.









(** A store of entries satisfies what the round trip asks of it. *)
Lemma entries_only_roundtrip (st : store) :
  entries_only st -> one_per_key st /\ forallb is_entry st = true.
Proof.
  intros [Hs Hf]. split; [apply key_ordered_one_per_key, Hs|].
  apply forallb_forall. exact (proj1 (Forall_forall _ _) Hf).
Qed.

(** On a store in key order the loop of [importJSON] over exported
    entries changes nothing at all. *)
Lemma importJSON_loop_identity (l : list obj) (w : World) :
  key_ordered (db w) ->
  (forall o, In o l -> In o (db w) /\ is_entry o = true) ->
  importJSON_loop (map to_json l) w = (Ok tt, w).
Proof.
  intros Hs. induction l as [|o l IH]; intros Hl; [reflexivity|].
  destruct (Hl o (or_introl eq_refl)) as [Hin He].
  cbn [map importJSON_loop].
  rewrite (of_json_to_json o (is_entry_plain o He)).
  unfold bind at 1. rewrite (importJSON_entry_entry o w He).
  destruct (is_entry_key o He) as [k Hk].
  unfold putEntry, tx, store_put. rewrite Hk.
  rewrite (store_put_back k o (db w) Hs Hin Hk), world_eta.
  apply IH. intros x Hx. apply Hl. right. exact Hx.
Qed.

(** Export, then import, on a store of entries: the import returns the
    number of entries and leaves the world exactly as the export left
    it. *)
Lemma import_export_identity (w : World) :
  entries_only (db w) ->
  exists doc,
    exportJSON w = (Ok doc, mkWorld (db w) (S (ticks w)) (draws w)) /\
    importJSON doc (mkWorld (db w) (S (ticks w)) (draws w))
    = (Ok (List.length (db w)), mkWorld (db w) (S (ticks w)) (draws w)).
Proof.
  intros [Hs Hf].
  destruct (sort_defined newestFirst (fun o => is_string (get o "created_at") = true)
              newestFirst_strings (db w)) as [sorted E].
  { eapply Forall_impl; [|exact Hf]. intros o. apply is_entry_created. }
  pose proof (sort_perm _ _ _ E) as Hp.
  eexists. split; [apply exportJSON_run, E|].
  unfold importJSON. simpl. unfold bind.
  rewrite importJSON_loop_identity.
  - unfold ret. rewrite length_map, (Permutation_length Hp). reflexivity.
  - exact Hs.
  - intros o Ho. pose proof (Permutation_in _ Hp Ho) as Hin. split; [exact Hin|].
    exact (proj1 (Forall_forall _ _) Hf o Hin).
Qed.

End InvariantFacts.



Lemma sample_world_entries_only : entries_only (db sample_world).
Proof.
  split; [split|]; simpl.
  - repeat constructor.
  - repeat constructor; discriminate.
  - repeat constructor.
Qed.

(** ** Search *)

Section SearchFacts.

Lemma matchesQuery_spec (e : obj) (q : string) :
  matchesQuery e q = true <->
  q = "" \/ exists pre post, toLowerCase (haystack e) = pre ++ q ++ post.
Proof.
  unfold matchesQuery. fold (haystack e). destruct q as [|c q]; simpl is_empty; cbv iota.
  - split; auto.
  - rewrite includes_spec. split; [auto | intros [H|H]; [discriminate | exact H]].
Qed.

Lemma filter_subsequence {A} (f : A -> bool) (l : list A) :
  subsequence (filter f l) l.
Proof.
  induction l as [|x l IH]; simpl; [constructor|].
  destruct (f x); constructor; exact IH.
Qed.

Lemma filter_all {A} (f : A -> bool) (l : list A) :
  (forall x, In x l -> f x = true) -> filter f l = l.
Proof.
  induction l as [|x l IH]; intros H; simpl; [reflexivity|].
  rewrite (H x (or_introl eq_refl)). f_equal. apply IH.
  intros y Hy. apply H. right. exact Hy.
Qed.

Lemma searchFilter_blank (entries : list obj) (qValue : string) :
  trim qValue = "" -> searchFilter entries qValue = entries.
Proof.
  intros H. unfold searchFilter. rewrite H. simpl. apply filter_all. reflexivity.
Qed.

Lemma haystack_frame (e : obj) (k : string) (v : json) :
  k <> "item" -> k <> "location" -> k <> "notes" ->
  haystack (set e k v) = haystack e.
Proof.
  intros H1 H2 H3. unfold haystack.
  rewrite !get_set_other by congruence. reflexivity.
Qed.

End SearchFacts.

(** C4 (amended): [searchFilter] trims the content of the search box
    before anything else.  When the trimmed query is empty it returns the
    entries unchanged.  Otherwise it returns a subsequence of the entries,
    in their order, that holds exactly the entries whose haystack, that is
    [item], [location] and [notes] joined by single spaces and lowercased,
    contains the trimmed and lowercased query.  [inventory] and [date]
    play no part: the haystack does not change with them, and the query
    ["3"] does not find an entry whose only ["3"] is its [inventory]. *)
Theorem searchFilter_spec (entries : list obj) (qValue : string) :
  (trim qValue = "" -> searchFilter entries qValue = entries) /\
  (trim qValue <> "" ->
   forall e,
     In e (searchFilter entries qValue) <->
     In e entries /\
     exists pre post,
       toLowerCase (haystack e) = pre ++ toLowerCase (trim qValue) ++ post) /\
  subsequence (searchFilter entries qValue) entries /\
  (forall e v, haystack (set e "inventory" v) = haystack e /\
               haystack (set e "date" v) = haystack e) /\
  get screws "inventory" = Some (JStr "3") /\
  searchFilter [screws] "3" = [].
Proof.
  split; [apply searchFilter_blank|].
  split.
  - intros N e. unfold searchFilter. rewrite filter_In, matchesQuery_spec.
    split; intros [H1 H2]; split; auto.
    destruct H2 as [H2|H2]; [|exact H2].
    apply (proj1 (toLowerCase_empty _)) in H2. contradiction.
  - split; [apply filter_subsequence|].
    split; [|split; reflexivity].
    intros e v. split; apply haystack_frame; discriminate.
Qed.

(** C4, as stated, fails in two ways.  The query is trimmed: [" drill"]
    finds the entry "Drill", whose lowercased fields do not contain
    [" drill"], joined with or without spaces.  And the fields are joined by
    spaces: ["bc"] does not find the entry with item "ab" and location
    "cd", although their concatenation "abcd" contains it. *)
Lemma searchFilter_differs_from_specified :
  (searchFilter [drill] " drill" = [drill] /\
   filter_as_specified [drill] " drill" = [] /\
   includes (toLowerCase (haystack drill)) (toLowerCase " drill") = false) /\
  (searchFilter [abcd] "bc" = [] /\
   filter_as_specified [abcd] "bc" = [abcd]).
Proof. repeat split. Qed.

(** C9: the haystack is [item], [location] and [notes] joined by single
    spaces, a missing field counting as empty, so a query with a space can
    match across two fields: the entry with item "Drill" and location
    "Garage" matches ["drill garage"], which none of its three fields
    contains.  An entry that has none of the three fields has the haystack
    of two spaces. *)
Theorem matchesQuery_across_fields :
  (forall e item location notes,
      get e "item" = Some (JStr item) ->
      get e "location" = Some (JStr location) ->
      get e "notes" = Some (JStr notes) ->
      forall q, q <> "" ->
        matchesQuery e q = true <->
        exists pre post,
          toLowerCase item ++ " " ++ toLowerCase location ++ " " ++ toLowerCase notes
          = pre ++ q ++ post) /\
  haystack (mkObj None []) = "  " /\
  get drill "item" = Some (JStr "Drill") /\
  get drill "location" = Some (JStr "Garage") /\
  matchesQuery drill "drill garage" = true /\
  searchFilter [drill] "drill garage" = [drill] /\
  includes (toLowerCase "Drill") "drill garage" = false /\
  includes (toLowerCase "Garage") "drill garage" = false /\
  includes (toLowerCase "needs battery") "drill garage" = false.
Proof.
  split; [|repeat split].
  intros e item location notes Hi Hl Hn q Hq.
  rewrite matchesQuery_spec. unfold haystack.
  rewrite Hi, Hl, Hn, !text_or_empty_string, !toLowerCase_app. simpl toLowerCase.
  split; [intros [H|H]; [contradiction | exact H] | auto].
Qed.

(** C10: a query made of white space only is trimmed to the empty query:
    [searchFilter] returns every entry, in the order given, exactly as for
    the empty query. *)
Theorem searchFilter_blank_query (entries : list obj) (qValue : string) :
  blank qValue = true ->
  searchFilter entries qValue = searchFilter entries "" /\
  searchFilter entries qValue = entries.
Proof.
  intros H. apply trim_blank in H.
  rewrite (searchFilter_blank entries qValue H).
  rewrite (searchFilter_blank entries "" eq_refl). split; reflexivity.
Qed.

Lemma searchFilter_blank_query_witness :
  blank "   " = true /\
  searchFilter [drill; screws; ladder] "   " = searchFilter [drill; screws; ladder] "" /\
  searchFilter [drill; screws; ladder] "   " = [drill; screws; ladder].
Proof.
  split; [reflexivity|].
  apply (searchFilter_blank_query [drill; screws; ladder] "   "). reflexivity.
Defined.

(** ** More on the log form *)

Section CreateFacts.

Context {host : Host}.

(** The record the log form makes of its inputs. *)
Lemma logForm_submit_run (form : Fields) (w : World) :
  trim (f_item form) <> "" ->
  logForm_submit form w =
  match store_get (KStr (uuids (draws w))) (db w) with
  | Some _ => (Ok SaveFailed, mkWorld (db w) (S (ticks w)) (S (draws w)))
  | None =>
      (Ok Yeeted,
       mkWorld
         (store_insert (KStr (uuids (draws w)))
            (entry (uuids (draws w)) (clock (ticks w)) JNull
               (trim (f_item form)) (trim (f_location form))
               (trim (f_inventory form)) (trim (f_date form))
               (trim (f_notes form)))
            (db w))
         (S (ticks w)) (S (draws w)))
  end.
Proof.
  intros H. apply is_empty_false in H. unfold logForm_submit. rewrite H.
  unfold bind, uuid, nowISO, try_catch, addEntry, tx, store_add. simpl.
  destruct (store_get (KStr (uuids (draws w))) (db w)); reflexivity.
Qed.

Lemma store_insert_length (k : key) (o : obj) (st : store) :
  List.length (store_insert k o st) = S (List.length st).
Proof. exact (Permutation_length (store_insert_perm k o st)). Qed.

End CreateFacts.

(** X1: a submission of the log form with a non-empty trimmed item, when
    the identifier drawn is not yet a key of the store, is answered
    "Yeeted." and stores one more record: looked up by the new id it has
    the trimmed inputs as its five text fields, the reading of the clock as
    [created_at] and a null [updated_at]; every other key holds what it
    held. *)
Theorem logForm_submit_then_get {host : Host} (form : Fields) (w : World) :
  trim (f_item form) <> "" ->
  store_get (KStr (uuids (draws w))) (db w) = None ->
  exists w',
    logForm_submit form w = (Ok Yeeted, w') /\
    getEntry (KStr (uuids (draws w))) w' =
      (Ok (Some (entry (uuids (draws w)) (clock (ticks w)) JNull
                   (trim (f_item form)) (trim (f_location form))
                   (trim (f_inventory form)) (trim (f_date form))
                   (trim (f_notes form)))), w') /\
    (forall k, k <> KStr (uuids (draws w)) ->
       store_get k (db w') = store_get k (db w)) /\
    List.length (db w') = S (List.length (db w)) /\
    ticks w' = S (ticks w) /\ draws w' = S (draws w).
Proof.
  intros Hitem Hfree. rewrite (logForm_submit_run form w Hitem), Hfree.
  eexists. split; [reflexivity|]. unfold getEntry. simpl.
  split.
  - rewrite store_get_insert_same; [reflexivity | reflexivity | exact Hfree].
  - split; [|split; [apply store_insert_length | split; reflexivity]].
    intros k N. apply store_get_insert_other; [reflexivity | exact N].
Qed.

Lemma logForm_submit_then_get_witness :
  trim (f_item (mkFields "  Hammer " "Shed " "2" "" "")) <> "" /\
  store_get (KStr (uuids (draws sample_world))) (db sample_world) = None /\
  exists w',
    logForm_submit (mkFields "  Hammer " "Shed " "2" "" "") sample_world
      = (Ok Yeeted, w') /\
    getEntry (KStr (uuids (draws sample_world))) w' =
      (Ok (Some (entry (uuids (draws sample_world))
                   (clock (ticks sample_world)) JNull
                   (trim (f_item (mkFields "  Hammer " "Shed " "2" "" "")))
                   (trim (f_location (mkFields "  Hammer " "Shed " "2" "" "")))
                   (trim (f_inventory (mkFields "  Hammer " "Shed " "2" "" "")))
                   (trim (f_date (mkFields "  Hammer " "Shed " "2" "" "")))
                   (trim (f_notes (mkFields "  Hammer " "Shed " "2" "" ""))))),
       w') /\
    (forall k, k <> KStr (uuids (draws sample_world)) ->
       store_get k (db w') = store_get k (db sample_world)) /\
    List.length (db w') = S (List.length (db sample_world)) /\
    ticks w' = S (ticks sample_world) /\ draws w' = S (draws sample_world).
Proof.
  split; [discriminate|]. split; [reflexivity|].
  apply (logForm_submit_then_get (host := sample_host)); [discriminate | reflexivity].
Defined.

(** X2: the log form never overwrites.  When the identifier drawn is
    already the key of a stored record, [add] refuses it: the form answers
    "Save failed" and the store is exactly as before (only the generator
    and the clock have been consulted). *)
Theorem logForm_submit_never_overwrites {host : Host} (form : Fields)
  (w : World) (o : obj) :
  trim (f_item form) <> "" ->
  store_get (KStr (uuids (draws w))) (db w) = Some o ->
  logForm_submit form w
  = (Ok SaveFailed, mkWorld (db w) (S (ticks w)) (S (draws w))).
Proof.
  intros Hitem Htaken. rewrite (logForm_submit_run form w Hitem), Htaken.
  reflexivity.
Qed.

Lemma logForm_submit_never_overwrites_witness :
  trim (f_item (mkFields "Hammer" "" "" "" "")) <> "" /\
  store_get (KStr (uuids (draws (mkWorld [entry "id-0" "2025-01-01T00:00:00.000Z" JNull "Saw" "" "" "" ""] 0 0))))
    (db (mkWorld [entry "id-0" "2025-01-01T00:00:00.000Z" JNull "Saw" "" "" "" ""] 0 0))
  = Some (entry "id-0" "2025-01-01T00:00:00.000Z" JNull "Saw" "" "" "" "") /\
  logForm_submit (mkFields "Hammer" "" "" "" "")
    (mkWorld [entry "id-0" "2025-01-01T00:00:00.000Z" JNull "Saw" "" "" "" ""] 0 0)
  = (Ok SaveFailed,
     mkWorld [entry "id-0" "2025-01-01T00:00:00.000Z" JNull "Saw" "" "" "" ""] 1 1).
Proof.
  split; [discriminate|]. split; [reflexivity|].
  apply (logForm_submit_never_overwrites (host := sample_host)
           (mkFields "Hammer" "" "" "" "")
           (mkWorld [entry "id-0" "2025-01-01T00:00:00.000Z" JNull "Saw" "" "" "" ""] 0 0)
           (entry "id-0" "2025-01-01T00:00:00.000Z" JNull "Saw" "" "" "" ""));
    [discriminate | reflexivity].
Defined.

(** ** More on the edit dialog *)

Section EditFacts.

Context {host : Host}.

(** The two refreshes that follow a put or a delete sort the same store:
    they return together or throw together, and change nothing. *)
Lemma refresh_run (q : string) (w : World) :
  (renderMaster ;; renderSearch q) w =
  match sort newestFirst (db w) with
  | Ok l => (Ok (searchFilter l q), w)
  | Throw e => (Throw e, w)
  end.
Proof.
  unfold renderMaster, renderSearch, bind, getAllEntries, lift, ret.
  cbv beta iota.
  destruct (sort newestFirst (db w)) as [l|e]; reflexivity.
Qed.

Lemma saveEdit_run_notice (eId : string) (form : Fields) (q : string)
  (w : World) (existing : obj) :
  store_get (KStr eId) (db w) = Some existing ->
  trim (f_item form) <> "" ->
  saveEdit eId form q w =
  (Ok match sort newestFirst
              (store_insert (KStr eId) (edited existing form (clock (ticks w)))
                 (store_delete (KStr eId) (db w))) with
      | Ok _ => Updated
      | Throw _ => UpdateFailed
      end,
   mkWorld
     (store_insert (KStr eId) (edited existing form (clock (ticks w)))
        (store_delete (KStr eId) (db w)))
     (S (ticks w)) (draws w)).
Proof.
  intros Hget Hitem. apply is_empty_false in Hitem.
  pose proof (store_get_some _ _ _ Hget) as [_ Hkey].
  unfold saveEdit. rewrite Hitem.
  unfold bind at 1. unfold getEntry. rewrite Hget.
  unfold bind at 1. unfold nowISO.
  fold (edited existing form (clock (ticks w))).
  set (r := edited existing form (clock (ticks w))).
  unfold try_catch, bind at 1, putEntry, tx, store_put. simpl db.
  unfold r at 1. rewrite edited_key, Hkey. fold r. simpl ticks. simpl draws.
  set (w1 := mkWorld _ _ _).
  pose proof (refresh_run q w1) as R. unfold bind at 1 in R.
  unfold bind at 1.
  destruct (renderMaster w1) as [[l|e] wm] eqn:EM.
  - unfold bind at 1. simpl in R.
    destruct (sort newestFirst (store_insert (KStr eId) r (store_delete (KStr eId) (db w))))
      as [l'|e'] eqn:ES; rewrite R; reflexivity.
  - simpl in R.
    destruct (sort newestFirst (store_insert (KStr eId) r (store_delete (KStr eId) (db w))))
      as [l'|e'] eqn:ES; [discriminate|].
    injection R as -> ->. reflexivity.
Qed.

Lemma edited_field (existing : obj) (form : Fields) (now : string) :
  get (edited existing form now) "item" = Some (JStr (trim (f_item form))) /\
  get (edited existing form now) "location" = Some (JStr (trim (f_location form))) /\
  get (edited existing form now) "inventory" = Some (JStr (trim (f_inventory form))) /\
  get (edited existing form now) "date" = Some (JStr (trim (f_date form))) /\
  get (edited existing form now) "notes" = Some (JStr (trim (f_notes form))).
Proof.
  unfold edited.
  repeat split;
    repeat (rewrite get_set; cbn [String.eqb Ascii.eqb Bool.eqb andb]);
    reflexivity.
Qed.

Lemma edited_other (existing : obj) (form : Fields) (now k : string) :
  named k = true ->
  ~ In k ("updated_at" :: text_fields) ->
  get (edited existing form now) k = get existing k.
Proof.
  intros Hn Hk. unfold edited.
  rewrite !get_set_other by (intros ->; apply Hk; simpl; tauto).
  apply get_spread, Hn.
Qed.

End EditFacts.

(** X3: [saveEdit] changes nothing, and reads no clock, when the item is
    empty after trimming (it answers "Item is required.") or when no record
    is stored under the id of the dialog (it answers "Could not load entry
    for update."): an edit never creates a record. *)
Theorem saveEdit_changes_nothing {host : Host} (eId : string) (form : Fields)
  (q : string) (w : World) :
  trim (f_item form) = "" \/ store_get (KStr eId) (db w) = None ->
  saveEdit eId form q w =
  (Ok (if is_empty (trim (f_item form)) then ItemRequired else NotLoaded), w).
Proof.
  intros H. unfold saveEdit.
  destruct (is_empty (trim (f_item form))) eqn:E; [reflexivity|].
  destruct H as [H|H]; [rewrite H in E; discriminate|].
  unfold bind, getEntry. rewrite H. reflexivity.
Qed.

Lemma saveEdit_changes_nothing_witness :
  (trim (f_item (mkFields "Drill" "" "" "" "")) = "" \/
   store_get (KStr "nobody") (db sample_world) = None) /\
  saveEdit "nobody" (mkFields "Drill" "" "" "" "") "" sample_world =
  (Ok (if is_empty (trim (f_item (mkFields "Drill" "" "" "" "")))
       then ItemRequired else NotLoaded), sample_world).
Proof.
  split; [right; reflexivity|].
  apply (saveEdit_changes_nothing (host := sample_host)). right. reflexivity.
Defined.

(** X4: [saveEdit] on a stored record with a non-empty trimmed item
    replaces that record and nothing else.  The new record has the trimmed
    inputs as its five text fields and the reading of the clock as
    [updated_at]; every other named property of the old record is kept,
    whatever it is; every other key holds what it held; no identifier is
    drawn. *)
Theorem saveEdit_merges {host : Host} (eId : string) (form : Fields)
  (q : string) (w : World) (existing : obj) :
  store_get (KStr eId) (db w) = Some existing ->
  trim (f_item form) <> "" ->
  exists n w' r,
    saveEdit eId form q w = (Ok n, w') /\
    store_get (KStr eId) (db w') = Some r /\
    get r "item" = Some (JStr (trim (f_item form))) /\
    get r "location" = Some (JStr (trim (f_location form))) /\
    get r "inventory" = Some (JStr (trim (f_inventory form))) /\
    get r "date" = Some (JStr (trim (f_date form))) /\
    get r "notes" = Some (JStr (trim (f_notes form))) /\
    get r "updated_at" = Some (JStr (clock (ticks w))) /\
    (forall k, named k = true -> ~ In k ("updated_at" :: text_fields) ->
       get r k = get existing k) /\
    (forall k, k <> KStr eId -> store_get k (db w') = store_get k (db w)) /\
    ticks w' = S (ticks w) /\ draws w' = draws w.
Proof.
  intros Hget Hitem.
  pose proof (store_get_some _ _ _ Hget) as [_ Hkey].
  rewrite (saveEdit_run_notice eId form q w existing Hget Hitem).
  eexists _, _, (edited existing form (clock (ticks w))).
  split; [reflexivity|]. simpl db.
  split; [apply store_get_after_put; rewrite edited_key; exact Hkey|].
  destruct (edited_field existing form (clock (ticks w))) as [H1 [H2 [H3 [H4 H5]]]].
  repeat match goal with |- _ /\ _ => split end; try assumption; try reflexivity.
  - apply edited_updated_at.
  - intros k Hn Hk. apply edited_other; assumption.
  - intros k N.
    rewrite store_get_insert_other; [apply store_get_delete_other, N | | exact N].
    rewrite edited_key. exact Hkey.
Qed.

Lemma saveEdit_merges_witness :
  store_get (KStr "a") (db sample_world) = Some drill /\
  trim (f_item (mkFields "Drill" "Shed" "" "" "charged")) <> "" /\
  exists n w' r,
    saveEdit "a" (mkFields "Drill" "Shed" "" "" "charged") "" sample_world
      = (Ok n, w') /\
    store_get (KStr "a") (db w') = Some r /\
    get r "item" = Some (JStr (trim (f_item (mkFields "Drill" "Shed" "" "" "charged")))) /\
    get r "location" = Some (JStr (trim (f_location (mkFields "Drill" "Shed" "" "" "charged")))) /\
    get r "inventory" = Some (JStr (trim (f_inventory (mkFields "Drill" "Shed" "" "" "charged")))) /\
    get r "date" = Some (JStr (trim (f_date (mkFields "Drill" "Shed" "" "" "charged")))) /\
    get r "notes" = Some (JStr (trim (f_notes (mkFields "Drill" "Shed" "" "" "charged")))) /\
    get r "updated_at" = Some (JStr (clock (ticks sample_world))) /\
    (forall k, named k = true -> ~ In k ("updated_at" :: text_fields) ->
       get r k = get drill k) /\
    (forall k, k <> KStr "a" ->
       store_get k (db w') = store_get k (db sample_world)) /\
    ticks w' = S (ticks sample_world) /\ draws w' = draws sample_world.
Proof.
  split; [reflexivity|]. split; [discriminate|].
  apply (saveEdit_merges (host := sample_host)); [reflexivity | discriminate].
Defined.
(** ** What the handlers show *)

Section NoticeFacts.

Context {host : Host}.

Lemma saveEdit_messages_run (eId : string) (form : Fields) (q : string)
  (w : World) (existing : obj) :
  store_get (KStr eId) (db w) = Some existing ->
  trim (f_item form) <> "" ->
  saveEdit_messages eId form q w =
  (Ok match sort newestFirst
              (store_insert (KStr eId) (edited existing form (clock (ticks w)))
                 (store_delete (KStr eId) (db w))) with
      | Ok _ => [Updated]
      | Throw _ => [Updated; UpdateFailed]
      end,
   mkWorld
     (store_insert (KStr eId) (edited existing form (clock (ticks w)))
        (store_delete (KStr eId) (db w)))
     (S (ticks w)) (draws w)).
Proof.
  intros Hget Hitem. apply is_empty_false in Hitem.
  pose proof (store_get_some _ _ _ Hget) as [_ Hkey].
  unfold saveEdit_messages. rewrite Hitem.
  unfold bind at 1. unfold getEntry. rewrite Hget.
  unfold bind at 1. unfold nowISO.
  set (r := edited existing form (clock (ticks w))).
  unfold try_catch at 1, bind at 1, putEntry, tx, store_put. simpl db.
  unfold r at 1. rewrite edited_key, Hkey. fold r. simpl ticks. simpl draws.
  set (w1 := mkWorld _ _ _).
  unfold try_catch.
  pose proof (refresh_run q w1) as R. unfold bind at 1 in R.
  unfold bind at 1.
  destruct (renderMaster w1) as [[l|e] wm] eqn:EM.
  - unfold bind at 1. simpl in R.
    destruct (sort newestFirst (store_insert (KStr eId) r (store_delete (KStr eId) (db w))))
      as [l'|e'] eqn:ES; rewrite R; reflexivity.
  - simpl in R.
    destruct (sort newestFirst (store_insert (KStr eId) r (store_delete (KStr eId) (db w))))
      as [l'|e'] eqn:ES; [discriminate|].
    injection R as -> ->. reflexivity.
Qed.

Lemma confirmDelete_messages_run (eId : string) (q : string) (w : World) :
  confirmDelete_messages eId true q w =
  (Ok match sort newestFirst (store_delete (KStr eId) (db w)) with
      | Ok _ => [Deleted]
      | Throw _ => [Deleted; DeleteFailed]
      end,
   mkWorld (store_delete (KStr eId) (db w)) (ticks w) (draws w)).
Proof.
  unfold confirmDelete_messages, try_catch at 1, bind at 1, deleteEntry, tx.
  cbv beta iota.
  set (w1 := mkWorld (store_delete (KStr eId) (db w)) (ticks w) (draws w)).
  unfold try_catch.
  pose proof (refresh_run q w1) as R. unfold bind at 1 in R.
  unfold bind at 1.
  destruct (renderMaster w1) as [[l|e] wm] eqn:EM.
  - unfold bind at 1. simpl in R.
    destruct (sort newestFirst (store_delete (KStr eId) (db w))) as [l'|e'];
      rewrite R; reflexivity.
  - simpl in R.
    destruct (sort newestFirst (store_delete (KStr eId) (db w))) as [l'|e'];
      [discriminate|].
    injection R as -> ->. reflexivity.
Qed.

Lemma confirmDelete_run (eId : string) (q : string) (w : World) :
  confirmDelete eId true q w =
  (Ok match sort newestFirst (store_delete (KStr eId) (db w)) with
      | Ok _ => Deleted
      | Throw _ => DeleteFailed
      end,
   mkWorld (store_delete (KStr eId) (db w)) (ticks w) (draws w)).
Proof.
  unfold confirmDelete, try_catch, bind at 1, deleteEntry, tx.
  cbv beta iota.
  set (w1 := mkWorld (store_delete (KStr eId) (db w)) (ticks w) (draws w)).
  pose proof (refresh_run q w1) as R. unfold bind at 1 in R.
  unfold bind at 1.
  destruct (renderMaster w1) as [[l|e] wm] eqn:EM.
  - unfold bind at 1. simpl in R.
    destruct (sort newestFirst (store_delete (KStr eId) (db w))) as [l'|e'];
      rewrite R; reflexivity.
  - simpl in R.
    destruct (sort newestFirst (store_delete (KStr eId) (db w))) as [l'|e'];
      [discriminate|].
    injection R as -> ->. reflexivity.
Qed.

End NoticeFacts.

(** X5: [saveEdit] shows "Updated" as soon as the put has returned,
    before it refreshes the views.  For a stored record and an item that
    is not blank it shows either "Updated" alone or "Updated" and then
    "Update failed"; in both cases the edited record is stored: "Update
    failed" does not tell that the edit was lost.  The answer of
    [saveEdit] is the last message shown. *)
Theorem saveEdit_updated_then_failed {host : Host} (eId : string)
  (form : Fields) (q : string) (w : World) (existing : obj) :
  store_get (KStr eId) (db w) = Some existing ->
  trim (f_item form) <> "" ->
  exists msgs w',
    saveEdit_messages eId form q w = (Ok msgs, w') /\
    (msgs = [Updated] \/ msgs = [Updated; UpdateFailed]) /\
    store_get (KStr eId) (db w') = Some (edited existing form (clock (ticks w))) /\
    saveEdit eId form q w = (Ok (last msgs Updated), w').
Proof.
  intros Hget Hitem.
  pose proof (store_get_some _ _ _ Hget) as [_ Hkey].
  rewrite (saveEdit_messages_run eId form q w existing Hget Hitem).
  rewrite (saveEdit_run_notice eId form q w existing Hget Hitem).
  eexists _, _. split; [reflexivity|]. simpl db.
  split; [destruct (sort newestFirst _); [left | right]; reflexivity|].
  split; [apply store_get_after_put; rewrite edited_key; exact Hkey|].
  destruct (sort newestFirst _); reflexivity.
Qed.

Lemma saveEdit_updated_then_failed_witness :
  store_get (KStr "m") (db undated_world) = Some (undated "m" 5) /\
  trim (f_item (mkFields "Box" "Shed" "" "" "")) <> "" /\
  exists msgs w',
    saveEdit_messages "m" (mkFields "Box" "Shed" "" "" "") "" undated_world
    = (Ok msgs, w') /\
    (msgs = [Updated] \/ msgs = [Updated; UpdateFailed]) /\
    store_get (KStr "m") (db w')
    = Some (edited (undated "m" 5) (mkFields "Box" "Shed" "" "" "")
              (clock (ticks undated_world))) /\
    saveEdit "m" (mkFields "Box" "Shed" "" "" "") "" undated_world
    = (Ok (last msgs Updated), w').
Proof.
  split; [reflexivity|]. split; [discriminate|].
  apply (saveEdit_updated_then_failed (host := sample_host));
    [reflexivity | discriminate].
Defined.

(** On the store of the two undated records the edit of one of them is
    stored, "Updated" is shown, and then "Update failed": the refresh has
    to compare the two records. *)
Example saveEdit_update_failed_but_stored :
  exists w',
    saveEdit_messages "m" (mkFields "Box" "Shed" "" "" "") "" undated_world
      = (Ok [Updated; UpdateFailed], w') /\
    store_get (KStr "m") (db w')
    = Some (edited (undated "m" 5) (mkFields "Box" "Shed" "" "" "")
              "2026-01-01T00:00:00.000Z").
Proof. eexists. split; vm_compute; reflexivity. Qed.

(** X6: [confirmDelete] shows nothing and does nothing when the dialog is
    dismissed.  When it is confirmed it shows "Deleted" as soon as the
    deletion has returned, alone or followed by "Delete failed" when the
    refresh of the views throws; in both cases no record is left under the
    id of the dialog, every other key holds what it held, and neither the
    clock nor the generator is consulted.  The answer of [confirmDelete] is
    the last message shown. *)
Theorem confirmDelete_removes {host : Host} (eId : string) (q : string)
  (w : World) :
  confirmDelete_messages eId false q w = (Ok [], w) /\
  confirmDelete eId false q w = (Ok Cancelled, w) /\
  exists msgs w',
    confirmDelete_messages eId true q w = (Ok msgs, w') /\
    (msgs = [Deleted] \/ msgs = [Deleted; DeleteFailed]) /\
    store_get (KStr eId) (db w') = None /\
    (forall k, k <> KStr eId -> store_get k (db w') = store_get k (db w)) /\
    ticks w' = ticks w /\ draws w' = draws w /\
    confirmDelete eId true q w = (Ok (last msgs Deleted), w').
Proof.
  split; [reflexivity|]. split; [reflexivity|].
  rewrite confirmDelete_messages_run, confirmDelete_run.
  eexists _, _. split; [reflexivity|]. simpl db.
  split; [destruct (sort newestFirst _); [left | right]; reflexivity|].
  split; [apply store_get_delete|].
  split; [intros k N; apply store_get_delete_other, N|].
  split; [reflexivity|]. split; [reflexivity|].
  destruct (sort newestFirst _); reflexivity.
Qed.

(** Deleting the entry beside the two undated records removes it, and
    shows "Deleted" and then "Delete failed". *)
Example confirmDelete_delete_failed_but_removed :
  confirmDelete_messages "a" true "" unsortable_world
  = (Ok [Deleted; DeleteFailed], undated_world).
Proof. vm_compute. reflexivity. Qed.

(** ** More on import *)

Section ImportMoreFacts.

Context {host : Host}.

Lemma importJSON_loop_app (l1 l2 : list json) (w : World) :
  importJSON_loop (l1 ++ l2)%list w =
  match importJSON_loop l1 w with
  | (Ok _, w1) => importJSON_loop l2 w1
  | (Throw e, w1) => (Throw e, w1)
  end.
Proof.
  revert w. induction l1 as [|v l1 IH]; intros w; [reflexivity|].
  cbn [app importJSON_loop]. destruct (of_json v) as [e|]; [|apply IH].
  unfold bind.
  destruct (importJSON_entry e w) as [[[]|x] w1]; [apply IH | reflexivity].
Qed.

Lemma key_at_completed (e : obj) (id now : string) :
  truthy (get e "id") = true -> key_at (completed e id now) = key_at e.
Proof.
  intros H. unfold key_at. rewrite completed_id, H. reflexivity.
Qed.

(** An element that has its own [id] and [created_at] is completed the
    same way whatever the generator and the clock would answer. *)
Lemma completed_settled (e : obj) (id now : string) :
  truthy (get e "id") = true -> truthy (get e "created_at") = true ->
  completed e id now = settled e.
Proof.
  intros Hi Hc. unfold settled, completed. cbv zeta. rewrite Hi, Hc. reflexivity.
Qed.

Lemma importFile_change_run (jsonText : text) (q : string) (w : World) :
  importFile_change (Some jsonText) q w =
  match importJSON jsonText w with
  | (Ok n, w1) =>
      (Ok match sort newestFirst (db w1) with
          | Ok _ => [ImportedToast n]
          | Throw e => [ImportedToast n; ImportFailedAlert e]
          end, w1)
  | (Throw e, w1) => (Ok [ImportFailedAlert e], w1)
  end.
Proof.
  unfold importFile_change, try_catch at 1, bind at 1.
  destruct (importJSON jsonText w) as [[n|e] w1]; [|reflexivity].
  unfold try_catch.
  pose proof (refresh_run q w1) as R. unfold bind at 1 in R.
  unfold bind at 1.
  destruct (renderMaster w1) as [[l|e] wm] eqn:EM.
  - unfold bind at 1. simpl in R.
    destruct (sort newestFirst (db w1)) as [l'|e']; rewrite R; reflexivity.
  - simpl in R.
    destruct (sort newestFirst (db w1)) as [l'|e']; [discriminate|].
    injection R as -> ->. reflexivity.
Qed.

End ImportMoreFacts.

(** X7: import is not all-or-nothing.  It stops at the first element of
    [entries] that makes the loop throw: one with a text field that cannot
    be printed (a TypeError of the conversion) or else one with an [id]
    that is set but is no key, a boolean or an object (a DataError of the
    put).  The records of the elements before it stay stored, the elements
    after it are not looked at, and the handler of the import control shows
    the failure alert and no toast.  The numbers of the document are taken
    to be safe integers. *)
Theorem importJSON_stops_half_way {host : Host} (parsed : json)
  (before after : list json) (v : json) (e : obj) (q : string) (w w1 : World) :
  safe parsed = true ->
  entries_of parsed = Some (before ++ v :: after)%list ->
  importJSON_loop before w = (Ok tt, w1) ->
  of_json v = Some e ->
  texts_printable e = false \/
  (truthy (get e "id") = true /\ key_at e = None) ->
  exists w',
    importJSON (Doc parsed) w
    = (Throw (if texts_printable e then DataError else TypeError), w') /\
    db w' = db w1 /\
    importFile_change (Some (Doc parsed)) q w
    = (Ok [ImportFailedAlert (if texts_printable e then DataError else TypeError)],
       w').
Proof.
  intros _ He Hb Hv Hbad.
  assert (R : exists w',
             importJSON (Doc parsed) w
             = (Throw (if texts_printable e then DataError else TypeError), w') /\
             db w' = db w1).
  { unfold importJSON. simpl. rewrite He. unfold bind at 1.
    rewrite importJSON_loop_app, Hb. cbn [importJSON_loop]. rewrite Hv.
    unfold bind at 1. rewrite importJSON_entry_run. cbv zeta.
    destruct (texts_printable e) eqn:P.
    - destruct Hbad as [Hbad | [Hid Hkey]]; [discriminate|].
      unfold putEntry, tx, store_put. cbn [db].
      rewrite (key_at_completed e _ _ Hid), Hkey.
      eexists. split; reflexivity.
    - eexists. split; reflexivity. }
  destruct R as [w' [R1 R2]]. exists w'. split; [exact R1|]. split; [exact R2|].
  rewrite importFile_change_run, R1. reflexivity.
Qed.

Lemma importJSON_stops_half_way_witness :
  (exists w',
     importJSON (Doc mixed_payload) empty_world = (Throw DataError, w') /\
     db w' = [kettle] /\
     importFile_change (Some (Doc mixed_payload)) "" empty_world
     = (Ok [ImportFailedAlert DataError], w')) /\
  (exists w',
     importJSON (Doc trapped_payload) empty_world = (Throw TypeError, w') /\
     db w' = [kettle] /\
     importFile_change (Some (Doc trapped_payload)) "" empty_world
     = (Ok [ImportFailedAlert TypeError], w')).
Proof.
  split.
  - apply (importJSON_stops_half_way (host := sample_host) mixed_payload
             [JObj [("id", JStr "k"); ("item", JStr "Kettle")]]
             [JObj [("id", JStr "l")]]
             (JObj [("id", JBool true)]) (mkObj None [("id", JBool true)])
             "" empty_world (mkWorld [kettle] 1 0));
      [reflexivity | reflexivity | reflexivity | reflexivity |].
    right. split; reflexivity.
  - apply (importJSON_stops_half_way (host := sample_host) trapped_payload
             [JObj [("id", JStr "k"); ("item", JStr "Kettle")]]
             [JObj [("id", JStr "l")]]
             (JObj [("id", JStr "t"); ("item", JObj [("toString", JNum 1)])])
             (mkObj None [("id", JStr "t"); ("item", JObj [("toString", JNum 1)])])
             "" empty_world (mkWorld [kettle] 1 0));
      [reflexivity | reflexivity | reflexivity | reflexivity |].
    left. reflexivity.
Defined.

Section UpsertFacts.

Context {host : Host}.

Lemma self_contained_record (v : json) (e : obj) :
  of_json v = Some e -> self_contained v = true ->
  truthy (get e "id") = true /\ truthy (get e "created_at") = true /\
  texts_printable e = true /\
  exists k, key_at e = Some k.
Proof.
  unfold self_contained. intros ->. rewrite !andb_true_iff.
  intros [[[Hi Hc] Hk] Hp]. destruct (key_at e) as [k|]; [eauto | discriminate].
Qed.

(** The loop over self-contained elements returns, consults neither the
    clock nor the generator, and leaves under every key the last record
    of the payload that goes under it, or else what the store held. *)
Lemma importJSON_loop_upserts (payload : list json) (w : World) :
  forallb self_contained payload = true ->
  exists st,
    importJSON_loop payload w = (Ok tt, mkWorld st (ticks w) (draws w)) /\
    forall k,
      store_get k st =
      match last_under k payload with
      | Some e => Some e
      | None => store_get k (db w)
      end.
Proof.
  revert w. induction payload as [|v payload IH]; intros w Hp.
  - exists (db w). simpl. unfold ret. rewrite world_eta. split; reflexivity.
  - simpl in Hp. apply andb_true_iff in Hp. destruct Hp as [Hv Hp].
    cbn [importJSON_loop last_under].
    destruct (of_json v) as [e|] eqn:Ev.
    + destruct (self_contained_record v e Ev Hv) as [Hi [Hc [Hq [k0 Hk]]]].
      unfold bind at 1. rewrite importJSON_entry_run. cbv zeta.
      rewrite Hi, Hc, Hq, world_eta.
      rewrite (completed_settled e _ _ Hi Hc).
      assert (Hk' : key_at (settled e) = Some k0).
      { unfold settled. rewrite key_at_completed; assumption. }
      unfold putEntry, tx, store_put. rewrite Hk'.
      destruct (IH (mkWorld (store_insert k0 (settled e) (store_delete k0 (db w)))
                      (ticks w) (draws w)) Hp) as [st [E L]].
      exists st. split; [exact E|].
      intros k. rewrite L. destruct (last_under k payload); [reflexivity|].
      cbn [db]. unfold at_key. rewrite Hk'.
      destruct (key_eqb k k0) eqn:Q.
      * apply key_eqb_eq in Q. subst k0. apply store_get_after_put, Hk'.
      * apply key_eqb_neq in Q.
        rewrite store_get_insert_other; [apply store_get_delete_other, Q | exact Hk' | exact Q].
    + destruct (IH w Hp) as [st [E L]]. exists st. split; [exact E|].
      intros k. rewrite L. destruct (last_under k payload); reflexivity.
Qed.

(** Two stores in key order that answer every lookup alike are the same
    list. *)
Lemma key_ordered_ext (a b : store) :
  key_ordered a -> key_ordered b ->
  (forall k, store_get k a = store_get k b) -> a = b.
Proof.
  revert b. induction a as [|x a IH]; intros b Ha Hb H.
  - destruct b as [|y b]; [reflexivity|]. exfalso.
    destruct Hb as [_ Hk]. inversion Hk as [|? ? Hy _]; subst.
    destruct (key_at y) as [ky|] eqn:Ey; [|contradiction].
    specialize (H ky). simpl in H. unfold store_get in H. simpl in H.
    rewrite (proj2 (at_key_true ky y) Ey) in H. discriminate.
  - destruct Ha as [Hsa Hka]. inversion Hsa as [|? ? Hsa' Hxa]; subst.
    inversion Hka as [|? ? Hx Hka']; subst.
    destruct (key_at x) as [kx|] eqn:Ex; [|contradiction].
    assert (Gx : store_get kx (x :: a) = Some x).
    { unfold store_get. simpl. rewrite (proj2 (at_key_true kx x) Ex). reflexivity. }
    destruct b as [|y b].
    { rewrite H in Gx. discriminate. }
    destruct Hb as [Hsb Hkb]. inversion Hsb as [|? ? Hsb' Hyb]; subst.
    inversion Hkb as [|? ? Hy Hkb']; subst.
    destruct (key_at y) as [ky|] eqn:Ey; [|contradiction].
    assert (Gy : store_get ky (y :: b) = Some y).
    { unfold store_get. simpl. rewrite (proj2 (at_key_true ky y) Ey). reflexivity. }
    assert (x = y).
    { pose proof Gx as Gx'. rewrite H in Gx'. apply store_get_some in Gx'.
      destruct Gx' as [[E|Hin] _]; [congruence|].
      pose proof Gy as Gy'. rewrite <- H in Gy'. apply store_get_some in Gy'.
      destruct Gy' as [[E|Hin'] _]; [congruence|].
      exfalso.
      pose proof (proj1 (Forall_forall _ _) Hyb x Hin) as L1.
      pose proof (proj1 (Forall_forall _ _) Hxa y Hin') as L2.
      pose proof (key_lt_trans _ _ _ L1 L2) as L.
      exact (key_lt_neq y y ky L Ey Ey). }
    subst y. f_equal. apply IH; [split; assumption | split; assumption |].
    intros k. specialize (H k). unfold store_get in *. simpl in H.
    destruct (at_key k x) eqn:Q; [|exact H].
    apply at_key_true in Q.
    transitivity (@None obj); [|symmetry].
    + apply (proj2 (store_get_none k a)). intros o Ho.
      exact (key_lt_neq x o k (proj1 (Forall_forall _ _) Hxa o Ho) Q).
    + apply (proj2 (store_get_none k b)). intros o Ho.
      exact (key_lt_neq x o k (proj1 (Forall_forall _ _) Hyb o Ho) Q).
Qed.

Lemma importJSON_upserts_run (parsed : json) (payload : list json) (w : World) :
  entries_of parsed = Some payload ->
  forallb self_contained payload = true ->
  exists st,
    importJSON (Doc parsed) w
    = (Ok (List.length payload), mkWorld st (ticks w) (draws w)) /\
    forall k,
      store_get k st =
      match last_under k payload with
      | Some e => Some e
      | None => store_get k (db w)
      end.
Proof.
  intros He Hp. destruct (importJSON_loop_upserts payload w Hp) as [st [E L]].
  exists st. split; [|exact L].
  unfold importJSON. simpl. rewrite He. unfold bind. rewrite E. reflexivity.
Qed.

End UpsertFacts.

(** X8: import is an upsert, and the last write wins.  When every record
    of the payload brings its own [id], a key, and its own [created_at], and
    text fields that can be printed, [importJSON] returns, consults neither
    the clock nor the generator, and afterwards each key holds the
    completed form of the last record of the payload with that key
    (replacing a stored record with the same key), or, when the payload has
    none, what the store held before.  The numbers of the document are
    taken to be safe integers. *)
Theorem importJSON_last_write_wins {host : Host} (parsed : json)
  (payload : list json) (w : World) :
  safe parsed = true ->
  entries_of parsed = Some payload ->
  forallb self_contained payload = true ->
  exists w',
    importJSON (Doc parsed) w = (Ok (List.length payload), w') /\
    ticks w' = ticks w /\ draws w' = draws w /\
    forall k,
      store_get k (db w') =
      match last_under k payload with
      | Some e => Some e
      | None => store_get k (db w)
      end.
Proof.
  intros _ He Hp.
  destruct (importJSON_upserts_run parsed payload w He Hp) as [st [E L]].
  eexists. split; [exact E|]. split; [reflexivity|]. split; [reflexivity|]. exact L.
Qed.

Lemma importJSON_last_write_wins_witness :
  safe drill_twice = true /\
  entries_of drill_twice = Some drill_twice_entries /\
  forallb self_contained drill_twice_entries = true /\
  exists w',
    importJSON (Doc drill_twice) sample_world
    = (Ok (List.length drill_twice_entries), w') /\
    ticks w' = ticks sample_world /\ draws w' = draws sample_world /\
    forall k,
      store_get k (db w') =
      match last_under k drill_twice_entries with
      | Some e => Some e
      | None => store_get k (db sample_world)
      end.
Proof.
  split; [reflexivity|]. split; [reflexivity|]. split; [reflexivity|].
  apply (importJSON_last_write_wins (host := sample_host)); reflexivity.
Defined.

(** On the sample store the second record for ["a"] replaces the entry
    and the first one; the empty item of ["e"] is accepted. *)
Example importJSON_drill_twice :
  exists w' a e,
    importJSON (Doc drill_twice) sample_world = (Ok 4, w') /\
    db w' = [a; screws; ladder; e] /\
    get a "item" = Some (JStr "Drill, new") /\
    get e "item" = Some (JStr "").
Proof. eexists _, _, _. repeat split; vm_compute; reflexivity. Qed.

(** X9: importing the same file again changes nothing.  On a store in key
    order, when every record of the payload brings its own [id], a key,
    and its own [created_at], and text fields that can be printed, a second
    [importJSON] of the document returns the same count and leaves the
    world exactly as the first one left it.  The numbers of the document
    are taken to be safe integers. *)
Theorem importJSON_again {host : Host} (parsed : json) (payload : list json)
  (w : World) :
  safe parsed = true ->
  key_ordered (db w) ->
  entries_of parsed = Some payload ->
  forallb self_contained payload = true ->
  exists w1,
    importJSON (Doc parsed) w = (Ok (List.length payload), w1) /\
    importJSON (Doc parsed) w1 = (Ok (List.length payload), w1).
Proof.
  intros _ Hw He Hp.
  destruct (importJSON_upserts_run parsed payload w He Hp) as [st1 [E1 L1]].
  set (w1 := mkWorld st1 (ticks w) (draws w)) in *.
  assert (O1 : key_ordered (db w1)).
  { pose proof (importJSON_ordered (Doc parsed) w Hw) as H. rewrite E1 in H. exact H. }
  destruct (importJSON_upserts_run parsed payload w1 He Hp) as [st2 [E2 L2]].
  assert (O2 : key_ordered st2).
  { pose proof (importJSON_ordered (Doc parsed) w1 O1) as H. rewrite E2 in H. exact H. }
  assert (st2 = st1).
  { apply key_ordered_ext; [exact O2 | exact O1|].
    intros k. rewrite L2. cbn [db w1]. rewrite (L1 k).
    destruct (last_under k payload); reflexivity. }
  subst st2. exists w1. split; [exact E1 | exact E2].
Qed.

Lemma importJSON_again_witness :
  safe drill_twice = true /\
  key_ordered (db sample_world) /\
  entries_of drill_twice = Some drill_twice_entries /\
  forallb self_contained drill_twice_entries = true /\
  exists w1,
    importJSON (Doc drill_twice) sample_world
    = (Ok (List.length drill_twice_entries), w1) /\
    importJSON (Doc drill_twice) w1 = (Ok (List.length drill_twice_entries), w1).
Proof.
  split; [reflexivity|].
  split; [exact (proj1 sample_world_entries_only)|].
  split; [reflexivity|]. split; [reflexivity|].
  apply (importJSON_again (host := sample_host));
    [reflexivity | exact (proj1 sample_world_entries_only)
    | reflexivity | reflexivity].
Defined.

(** ** The views and the export, for any store *)

Section ViewFacts.

Context {host : Host}.

(** The argument of [localeCompare] when the [created_at] it is read
    from is a string or falsy. *)
Lemma sortable_argument (a : obj) :
  sortable a = true ->
  match get a "created_at" with
  | Some x => if truthy (Some x) then String_of x else Ok ""
  | None => Ok ""
  end = Ok (created a).
Proof.
  unfold sortable, created, text_or_empty, String_of.
  destruct (get a "created_at") as [[|ab|n|s|items|fields]|]; simpl;
    try destruct ab; try destruct (n =? 0)%Z; simpl;
    try discriminate; try reflexivity.
  intros _. destruct (is_empty s); reflexivity.
Qed.

Lemma newestFirst_sortable (a b : obj) :
  sortable a = true -> sortable b = true -> exists c, newestFirst a b = Ok c.
Proof.
  intros Ha Hb. unfold newestFirst. cbv zeta. rewrite (sortable_argument a Ha).
  unfold sortable in Hb.
  destruct (get b "created_at") as [[|bb|n|s|items|fields]|]; simpl in *;
    try destruct bb; try destruct (n =? 0)%Z; simpl in *;
    try discriminate; eauto.
Qed.

(** The comparator throws nothing but a TypeError, and only on a record
    whose [created_at] is neither a string nor falsy. *)
Lemma newestFirst_throws (a b : obj) (e : exn) :
  newestFirst a b = Throw e ->
  e = TypeError /\ (sortable a = false \/ sortable b = false).
Proof.
  destruct (sortable a) eqn:Ha.
  - unfold newestFirst. cbv zeta. rewrite (sortable_argument a Ha).
    unfold sortable.
    destruct (get b "created_at") as [[|bb|n|s|items|fields]|]; simpl;
      try destruct bb; try destruct (n =? 0)%Z; simpl;
      try discriminate; intros H; injection H as <-; auto.
  - intros H. split; [|auto].
    unfold newestFirst, String_of in H.
    destruct (get a "created_at") as [x|];
      [destruct (truthy (Some x)); [destruct (printable x)|]|];
      destruct (get b "created_at") as [[|bb|n|s|items|fields]|]; simpl in H;
      try destruct bb; try destruct (n =? 0)%Z; simpl in H;
      try discriminate; injection H as <-; reflexivity.
Qed.

Lemma sort_insert_throws {A} (cmp : A -> A -> result comparison) (x : A)
  (l : list A) (e : exn) :
  sort_insert cmp x l = Throw e -> exists y, In y l /\ cmp x y = Throw e.
Proof.
  induction l as [|y l IH]; simpl; [discriminate|].
  destruct (cmp x y) as [[| |]|e'] eqn:E; try discriminate.
  - destruct (sort_insert cmp x l) as [r|e'']; [discriminate|].
    intros H. injection H as ->. destruct (IH eq_refl) as [z [Hz Ez]]. eauto.
  - intros H. injection H as ->. eauto.
Qed.

Lemma sort_throws {A} (cmp : A -> A -> result comparison) (l : list A) (e : exn) :
  sort cmp l = Throw e -> exists x y, In x l /\ In y l /\ cmp x y = Throw e.
Proof.
  induction l as [|x l IH]; simpl; [discriminate|].
  destruct (sort cmp l) as [r|e'] eqn:E.
  - intros H. apply sort_insert_throws in H. destruct H as [y [Hy Ey]].
    exists x, y. split; [auto|]. split; [|exact Ey].
    right. exact (Permutation_in _ (sort_perm cmp _ _ E) Hy).
  - intros H. injection H as ->. destruct (IH eq_refl) as [a [b [Ha [Hb Eab]]]].
    exists a, b. auto.
Qed.




End ViewFacts.



Lemma forallb_false_exists {A} (f : A -> bool) (l : list A) :
  forallb f l = false -> exists x, In x l /\ f x = false.
Proof.
  induction l as [|x l IH]; simpl; [discriminate|].
  destruct (f x) eqn:E; simpl.
  - intros H. destruct (IH H) as [y [Hy Ey]]. eauto.
  - intros _. eauto.
Qed.

Lemma sort_sortable {host : Host} (l : list obj) :
  forallb sortable l = true -> exists l', sort newestFirst l = Ok l'.
Proof.
  intros H. apply (sort_defined newestFirst (fun o => sortable o = true)).
  - exact newestFirst_sortable.
  - apply Forall_forall. exact (proj1 (forallb_forall _ _) H).
Qed.

(** X11: [exportJSON] never changes the store and has two outcomes only.
    Either it returns a document whose [entries] are all the stored
    records, each once, after one reading of the clock; or it throws a
    [TypeError] and leaves the world untouched, which happens only when
    some stored [created_at] is neither a string nor falsy.  It returns
    whenever every stored [created_at] is a string or falsy, whatever the
    collation of the host. *)
Theorem exportJSON_outcomes {host : Host} (w : World) :
  ((exists sorted,
       exportJSON w =
       (Ok (Doc (JObj [("exported_at", JStr (clock (ticks w)));
                       ("entries", JArr (map to_json sorted))])),
        mkWorld (db w) (S (ticks w)) (draws w)) /\
       Permutation sorted (db w))
   \/
   (exportJSON w = (Throw TypeError, w) /\
    exists o, In o (db w) /\ sortable o = false)) /\
  (forallb sortable (db w) = true ->
   exists doc, exportJSON w = (Ok doc, mkWorld (db w) (S (ticks w)) (draws w))).
Proof.
  split.
  - destruct (sort newestFirst (db w)) as [sorted|e] eqn:E.
    + left. exists sorted. split; [apply exportJSON_run, E|].
      exact (sort_perm _ _ _ E).
    + right. destruct (sort_throws _ _ _ E) as [a [b [Ha [Hb Hab]]]].
      apply newestFirst_throws in Hab. destruct Hab as [-> [Hs|Hs]].
      * split; [|eauto].
        unfold exportJSON, bind, getAllEntries, lift. cbv beta iota.
        rewrite E. reflexivity.
      * split; [|eauto].
      unfold exportJSON, bind, getAllEntries, lift. cbv beta iota.
      rewrite E. reflexivity.
  - intros H. destruct (sort_sortable (db w) H) as [sorted E].
    eexists. apply exportJSON_run, E.
Qed.



(** ** Opening the edit dialog *)

Section DialogFacts.

Context {host : Host}.

Lemma openEdit_run (id : key) (w : World) :
  openEdit id w =
  (Ok match store_get id (db w) with
      | None => None
      | Some e => Some (input_value (get e "id"), fields_of e)
      end, w).
Proof.
  unfold openEdit, bind, getEntry, ret. destruct (store_get id (db w)); reflexivity.
Qed.

Lemma key_of_number (v : json) (n : Z) : key_of v = Some (KNum n) -> v = JNum n.
Proof.
  destruct v as [|b|m|s|items|fields]; simpl; try discriminate.
  - intros H. injection H as ->. reflexivity.
  - destruct ((fix all (l : list json) : option (list key) :=
                 match l with
                 | [] => Some []
                 | x :: r =>
                     match key_of x, all r with
                     | Some k, Some ks => Some (k :: ks)
                     | _, _ => None
                     end
                 end) items); discriminate.
Qed.

Lemma key_of_string (v : json) (s : string) : key_of v = Some (KStr s) -> v = JStr s.
Proof.
  destruct v as [|b|m|t|items|fields]; simpl; try discriminate.
  - intros H. injection H as ->. reflexivity.
  - destruct ((fix all (l : list json) : option (list key) :=
                 match l with
                 | [] => Some []
                 | x :: r =>
                     match key_of x, all r with
                     | Some k, Some ks => Some (k :: ks)
                     | _, _ => None
                     end
                 end) items); discriminate.
Qed.

Lemma stored_id_number (e : obj) (n : Z) :
  key_at e = Some (KNum n) -> get e "id" = Some (JNum n).
Proof.
  unfold key_at. destruct (get e "id") as [v|]; [|discriminate].
  intros H. apply key_of_number in H. congruence.
Qed.

Lemma stored_id_string (e : obj) (s : string) :
  key_at e = Some (KStr s) -> get e "id" = Some (JStr s).
Proof.
  unfold key_at. destruct (get e "id") as [v|]; [|discriminate].
  intros H. apply key_of_string in H. congruence.
Qed.

Lemma assoc_set_same (k : string) (v : json) (l : list (string * json)) :
  assoc_get k l = Some v -> assoc_set k v l = l.
Proof.
  induction l as [|[k0 v0] l IH]; simpl; [discriminate|].
  destruct (String.eqb k k0) eqn:E.
  - apply String.eqb_eq in E. subst k0. intros H. injection H as ->. reflexivity.
  - intros H. rewrite (IH H). reflexivity.
Qed.

Lemma set_same (o : obj) (k : string) (v : json) :
  get o k = Some v -> set o k v = o.
Proof.
  unfold get, set. intros H. rewrite (assoc_set_same k v _ H).
  destruct o. reflexivity.
Qed.

End DialogFacts.

(** X13: a record stored under a number cannot be edited or deleted
    through the dialog.  [openEdit] of such a record writes the printed
    number into the field [eId]; [saveEdit] and [confirmDelete] then look
    for the string, which is another key: unless a record happens to be
    stored under that string, [saveEdit] changes nothing and
    [confirmDelete] leaves the world as it was, the record included,
    whatever it answers.  The number is a safe integer, and the record one
    the dialog can show. *)
Theorem numeric_id_is_out_of_reach {host : Host} (n : Z) (e : obj)
  (form : Fields) (q : string) (w : World) :
  safe_integer n = true ->
  showable e = true ->
  store_get (KNum n) (db w) = Some e ->
  store_get (KStr (Number_toString n)) (db w) = None ->
  openEdit (KNum n) w = (Ok (Some (Number_toString n, fields_of e)), w) /\
  saveEdit (Number_toString n) form q w =
    (Ok (if is_empty (trim (f_item form)) then ItemRequired else NotLoaded), w) /\
  exists answer,
    confirmDelete (Number_toString n) true q w = (Ok answer, w) /\
    store_get (KNum n) (db w) = Some e.
Proof.
  intros _ _ Hget Hnone.
  pose proof (store_get_some _ _ _ Hget) as [_ Hkey].
  split.
  - rewrite openEdit_run, Hget, (stored_id_number e n Hkey). reflexivity.
  - split.
    + unfold saveEdit. destruct (is_empty (trim (f_item form))); [reflexivity|].
      unfold bind, getEntry. rewrite Hnone. reflexivity.
    + rewrite confirmDelete_run, (store_delete_absent _ _ Hnone), world_eta.
      eexists. split; [reflexivity | exact Hget].
Qed.

Lemma numeric_id_is_out_of_reach_witness :
  safe_integer 7 = true /\
  showable numbered = true /\
  store_get (KNum 7) (db numbered_world) = Some numbered /\
  store_get (KStr (Number_toString 7)) (db numbered_world) = None /\
  openEdit (KNum 7) numbered_world
    = (Ok (Some ("7", mkFields "Tape" "" "" "" "")), numbered_world) /\
  saveEdit "7" (mkFields "Tape" "Desk" "" "" "") "" numbered_world =
    (Ok NotLoaded, numbered_world) /\
  exists answer,
    confirmDelete "7" true "" numbered_world = (Ok answer, numbered_world) /\
    store_get (KNum 7) (db numbered_world) = Some numbered.
Proof.
  split; [reflexivity|]. split; [reflexivity|].
  split; [reflexivity|]. split; [reflexivity|].
  apply (numeric_id_is_out_of_reach (host := sample_host) 7 numbered
           (mkFields "Tape" "Desk" "" "" "") "" numbered_world); reflexivity.
Defined.

(** The numbered record reaches the store by import, and the dialog does
    not delete it. *)
Example numbered_record_stays :
  importJSON
    (Doc (JObj [("entries",
       JArr [JObj [("id", JNum 7); ("created_at", JStr "2025-01-05T09:00:00.000Z");
                   ("updated_at", JNull); ("item", JStr "Tape")]])]))
    (mkWorld [drill] 0 0) = (Ok 1, numbered_world) /\
  confirmDelete_messages "7" true "" numbered_world = (Ok [Deleted], numbered_world).
Proof. split; vm_compute; reflexivity. Qed.

(** X14: saving an entry with the values it has changes [updated_at] and
    nothing else.  For a stored entry with a string id whose five text
    fields are already trimmed and whose item is not empty, [saveEdit]
    with exactly those five values (the dialog as [openEdit] filled it,
    where its controls hold what they were given) stores the same record
    with [updated_at] set to the reading of the clock, and leaves every
    other key as it was. *)
Theorem saveEdit_same_values {host : Host} (id : string) (existing : obj)
  (q : string) (w : World) :
  store_get (KStr id) (db w) = Some existing ->
  is_entry existing = true ->
  (forall f, In f text_fields ->
     exists s, get existing f = Some (JStr s) /\ trim s = s) ->
  get existing "item" <> Some (JStr "") ->
  exists n w',
    saveEdit id (fields_of existing) q w = (Ok n, w') /\
    store_get (KStr id) (db w')
    = Some (set existing "updated_at" (JStr (clock (ticks w)))) /\
    (forall k, k <> KStr id -> store_get k (db w') = store_get k (db w)).
Proof.
  intros Hget He Htrim Hitem.
  pose proof (store_get_some _ _ _ Hget) as [_ Hkey].
  destruct (Htrim "item") as [si [Ei Ti]]; [simpl; tauto|].
  destruct (Htrim "location") as [sl [El Tl]]; [simpl; tauto|].
  destruct (Htrim "inventory") as [sv [Ev Tv]]; [simpl; tauto|].
  destruct (Htrim "date") as [sd [Ed Td]]; [simpl; tauto|].
  destruct (Htrim "notes") as [sn [En Tn]]; [simpl; tauto|].
  assert (S : fields_of existing = mkFields si sl sv sd sn).
  { unfold fields_of. rewrite Ei, El, Ev, Ed, En, !text_or_empty_string.
    reflexivity. }
  rewrite S. set (shown := mkFields si sl sv sd sn).
  assert (Hne : trim (f_item shown) <> "").
  { simpl. rewrite Ti. intros ->. apply Hitem. exact Ei. }
  destruct (saveEdit_run id shown q w existing Hget Hne) as [n [E _]].
  eexists n, _. split; [exact E|]. cbn [db].
  assert (R : edited existing shown (clock (ticks w))
              = set existing "updated_at" (JStr (clock (ticks w)))).
  { unfold edited, spread. rewrite (is_entry_plain existing He).
    replace (mkObj None (obj_props existing)) with existing
      by (pose proof (is_entry_plain existing He) as P;
          destruct existing as [i p]; simpl in P; subst i; reflexivity).
    simpl f_item. simpl f_location. simpl f_inventory. simpl f_date. simpl f_notes.
    rewrite Ti, Tl, Tv, Td, Tn.
    rewrite (set_same existing "item" _ Ei), (set_same existing "location" _ El),
      (set_same existing "inventory" _ Ev), (set_same existing "date" _ Ed),
      (set_same existing "notes" _ En). reflexivity. }
  rewrite R. split.
  - apply store_get_after_put. rewrite <- R, edited_key. exact Hkey.
  - intros k N.
    rewrite store_get_insert_other; [apply store_get_delete_other, N | | exact N].
    rewrite <- R, edited_key. exact Hkey.
Qed.

Lemma saveEdit_same_values_witness :
  store_get (KStr "a") (db sample_world) = Some drill /\
  is_entry drill = true /\
  (forall f, In f text_fields ->
     exists s, get drill f = Some (JStr s) /\ trim s = s) /\
  get drill "item" <> Some (JStr "") /\
  exists n w',
    saveEdit "a" (fields_of drill) "" sample_world = (Ok n, w') /\
    store_get (KStr "a") (db w')
    = Some (set drill "updated_at" (JStr (clock (ticks sample_world)))) /\
    (forall k, k <> KStr "a" ->
       store_get k (db w') = store_get k (db sample_world)).
Proof.
  assert (T : forall f, In f text_fields ->
                exists s, get drill f = Some (JStr s) /\ trim s = s).
  { intros f Hf. simpl in Hf.
    repeat (destruct Hf as [<-|Hf]; [eexists; split; reflexivity|]).
    destruct Hf. }
  split; [reflexivity|]. split; [reflexivity|]. split; [exact T|].
  split; [discriminate|].
  apply (saveEdit_same_values (host := sample_host));
    [reflexivity | reflexivity | exact T | discriminate].
Defined.

(** ** The pills *)

(** X15: [entryPills] shows one pill for each of [location], [inventory],
    [date] and [notes] that is set, in that order, and none for the item:
    there are as many pills as fields set among the four, none exactly
    when all four are falsy, the pill of the notes reads "Notes" whatever
    the notes say, and the pills do not change with the item. *)
Theorem entryPills_count (e : obj) :
  List.length (entryPills e) = shown_fields e /\
  (entryPills e = [] <->
   truthy (get e "location") = false /\ truthy (get e "inventory") = false /\
   truthy (get e "date") = false /\ truthy (get e "notes") = false) /\
  (truthy (get e "notes") = true ->
   exists pills, entryPills e = (pills ++ [JStr "Notes"])%list) /\
  (forall v, entryPills (set e "item" v) = entryPills e).
Proof.
  unfold entryPills, shown_fields. cbn [filter].
  split; [|split; [|split]].
  - destruct (get e "location") as [vl|]; destruct (get e "date") as [vd|];
      change (truthy None) with false;
      repeat match goal with
             | |- context [truthy ?x] => destruct (truthy x)
             end; reflexivity.
  - destruct (get e "location") as [vl|]; destruct (get e "date") as [vd|];
      change (truthy None) with false;
      repeat match goal with
             | |- context [truthy ?x] => destruct (truthy x)
             end; simpl; split; try discriminate; try tauto;
      intros [H1 [H2 [H3 H4]]]; discriminate.
  - intros ->. eexists. rewrite !app_assoc. reflexivity.
  - intros v. rewrite !get_set_other by discriminate. reflexivity.
Qed.

(** ** Invariants of the whole program *)

Section WholeProgramFacts.

Context {host : Host}.

Lemma logForm_submit_ordered (form : Fields) (w : World) :
  key_ordered (db w) -> key_ordered (db (snd (logForm_submit form w))).
Proof.
  intros Hw. destruct (is_empty (trim (f_item form))) eqn:E.
  - unfold logForm_submit. rewrite E. exact Hw.
  - apply is_empty_false in E. rewrite (logForm_submit_run form w E).
    destruct (store_get (KStr (uuids (draws w))) (db w)) eqn:G; [exact Hw|].
    cbn [snd db]. apply store_insert_ordered; [reflexivity | exact G | exact Hw].
Qed.

Lemma saveEdit_ordered (eId : string) (form : Fields) (q : string) (w : World) :
  key_ordered (db w) -> key_ordered (db (snd (saveEdit eId form q w))).
Proof.
  intros Hw. destruct (is_empty (trim (f_item form))) eqn:E.
  - unfold saveEdit. rewrite E. exact Hw.
  - destruct (store_get (KStr eId) (db w)) as [existing|] eqn:G.
    + apply is_empty_false in E.
      rewrite (saveEdit_run_notice eId form q w existing G E). cbn [snd db].
      pose proof (store_get_some _ _ _ G) as [_ Hk].
      apply store_insert_ordered;
        [rewrite edited_key; exact Hk | apply store_get_delete
         | apply store_delete_ordered, Hw].
    + unfold saveEdit. rewrite E. unfold bind, getEntry. rewrite G. exact Hw.
Qed.

Lemma confirmDelete_ordered (eId : string) (ok : bool) (q : string) (w : World) :
  key_ordered (db w) -> key_ordered (db (snd (confirmDelete eId ok q w))).
Proof.
  intros Hw. destruct ok; [|exact Hw].
  rewrite confirmDelete_run. cbn [snd db]. apply store_delete_ordered, Hw.
Qed.

Lemma importFile_change_ordered (file : option text) (q : string) (w : World) :
  key_ordered (db w) -> key_ordered (db (snd (importFile_change file q w))).
Proof.
  intros Hw. destruct file as [t|]; [|exact Hw].
  rewrite importFile_change_run.
  pose proof (importJSON_ordered t w Hw) as H.
  destruct (importJSON t w) as [[n|e] w1]; exact H.
Qed.


End WholeProgramFacts.

(** X16: the store stays in key order, hence with one record per key,
    through every handler: the log form, [saveEdit], [confirmDelete],
    [importJSON] and the handler of the import control (also when the
    import throws half-way), and [exportJSON]. *)
Theorem store_stays_in_key_order {host : Host} (w : World) (form : Fields)
  (eId q : string) (ok : bool) (jsonText : text) (file : option text) :
  key_ordered (db w) ->
  key_ordered (db (snd (logForm_submit form w))) /\
  key_ordered (db (snd (saveEdit eId form q w))) /\
  key_ordered (db (snd (confirmDelete eId ok q w))) /\
  key_ordered (db (snd (importJSON jsonText w))) /\
  key_ordered (db (snd (importFile_change file q w))) /\
  key_ordered (db (snd (exportJSON w))) /\
  one_per_key (db (snd (importJSON jsonText w))).
Proof.
  intros Hw.
  split; [apply logForm_submit_ordered, Hw|].
  split; [apply saveEdit_ordered, Hw|].
  split; [apply confirmDelete_ordered, Hw|].
  split; [apply importJSON_ordered, Hw|].
  split; [apply importFile_change_ordered, Hw|].
  split; [rewrite exportJSON_store; exact Hw|].
  apply key_ordered_one_per_key, importJSON_ordered, Hw.
Qed.

Lemma store_stays_in_key_order_witness :
  key_ordered (db sample_world) /\
  key_ordered (db (snd (logForm_submit (mkFields "Hammer" "" "" "" "") sample_world))) /\
  key_ordered (db (snd (saveEdit "b" (mkFields "Hammer" "" "" "" "") "" sample_world))) /\
  key_ordered (db (snd (confirmDelete "b" true "" sample_world))) /\
  key_ordered (db (snd (importJSON (Doc mixed_payload) sample_world))) /\
  key_ordered (db (snd (importFile_change (Some (Doc mixed_payload)) "" sample_world))) /\
  key_ordered (db (snd (exportJSON sample_world))) /\
  one_per_key (db (snd (importJSON (Doc mixed_payload) sample_world))).
Proof.
  split; [exact (proj1 sample_world_entries_only)|].
  apply (store_stays_in_key_order (host := sample_host)).
  exact (proj1 sample_world_entries_only).
Defined.



(** X18: on a store of entries kept in key order, export followed by
    import restores the world to the letter: the import returns the number
    of entries, draws no identifier, reads no clock, and leaves the very
    same list of records (the one reading of the clock is the export's). *)
Theorem roundtrip_restores_the_store {host : Host} (w : World) :
  entries_only (db w) ->
  exists doc,
    exportJSON w = (Ok doc, mkWorld (db w) (S (ticks w)) (draws w)) /\
    importJSON doc (mkWorld (db w) (S (ticks w)) (draws w))
    = (Ok (List.length (db w)), mkWorld (db w) (S (ticks w)) (draws w)).
Proof. apply import_export_identity. Qed.

Lemma roundtrip_restores_the_store_witness :
  entries_only (db sample_world) /\
  exists doc,
    exportJSON sample_world
    = (Ok doc, mkWorld (db sample_world) (S (ticks sample_world)) (draws sample_world)) /\
    importJSON doc
      (mkWorld (db sample_world) (S (ticks sample_world)) (draws sample_world))
    = (Ok (List.length (db sample_world)),
       mkWorld (db sample_world) (S (ticks sample_world)) (draws sample_world)).
Proof.
  split; [exact sample_world_entries_only|].
  apply (roundtrip_restores_the_store (host := sample_host)).
  exact sample_world_entries_only.
Defined.

(** ** Narrowing a search, and undoing a submission *)

Section NarrowFacts.

Lemma filter_subsequence_impl {A} (f g : A -> bool) (l : list A) :
  (forall x, f x = true -> g x = true) ->
  subsequence (filter f l) (filter g l).
Proof.
  intros H. induction l as [|x l IH]; simpl; [constructor|].
  destruct (f x) eqn:F.
  - rewrite (H x F). apply subsequence_keep. exact IH.
  - destruct (g x); [apply subsequence_skip|]; exact IH.
Qed.

Lemma includes_trans (s q r : string) :
  includes s q = true -> includes q r = true -> includes s r = true.
Proof.
  rewrite !includes_spec. intros [a [b ->]] [c [d ->]].
  exists (a ++ c), (d ++ b). rewrite !append_assoc. reflexivity.
Qed.

Lemma matchesQuery_narrow (e : obj) (q1 q2 : string) :
  includes q2 q1 = true ->
  matchesQuery e q2 = true -> matchesQuery e q1 = true.
Proof.
  intros H. unfold matchesQuery.
  destruct q1 as [|c1 r1]; [reflexivity|].
  destruct q2 as [|c2 r2]; [discriminate H|].
  cbn [is_empty]. intros M. exact (includes_trans _ _ _ M H).
Qed.

Lemma store_delete_insert (k : key) (o : obj) (st : store) :
  key_at o = Some k -> store_get k st = None ->
  store_delete k (store_insert k o st) = st.
Proof.
  intros Ho Hfree. destruct (store_insert_split k o st) as [l1 [l2 [E1 E2]]].
  rewrite E2. unfold store_delete. rewrite filter_app. simpl.
  rewrite (proj2 (at_key_true k o) Ho). simpl.
  rewrite <- filter_app, <- E1. apply store_delete_absent, Hfree.
Qed.

End NarrowFacts.

(** X19: a longer query narrows the search.  When the trimmed, lowercased
    content [q1] of the search box occurs in the trimmed, lowercased [q2],
    every entry shown for [q2] is shown for [q1], in the same order: the
    result for [q2] is a subsequence of the result for [q1]. *)
Theorem searchFilter_narrows (entries : list obj) (q1 q2 : string) :
  includes (toLowerCase (trim q2)) (toLowerCase (trim q1)) = true ->
  subsequence (searchFilter entries q2) (searchFilter entries q1).
Proof.
  intros H. unfold searchFilter. apply filter_subsequence_impl.
  intros e. apply matchesQuery_narrow, H.
Qed.

Lemma searchFilter_narrows_witness :
  includes (toLowerCase (trim "Garage ")) (toLowerCase (trim " gar")) = true /\
  subsequence (searchFilter [drill; screws; ladder] "Garage ")
              (searchFilter [drill; screws; ladder] " gar").
Proof.
  split; [reflexivity|].
  apply (searchFilter_narrows [drill; screws; ladder] " gar" "Garage "). reflexivity.
Defined.

(** X20: deleting what has just been logged undoes the submission.  After
    a submission of the log form that stores a record under a new
    identifier, [confirmDelete] of that identifier, confirmed, leaves the
    store exactly as it was before the submission; only the generator and
    the clock have moved on. *)
Theorem logForm_submit_then_delete {host : Host} (form : Fields) (q : string)
  (w : World) :
  trim (f_item form) <> "" ->
  store_get (KStr (uuids (draws w))) (db w) = None ->
  exists w' answer,
    logForm_submit form w = (Ok Yeeted, w') /\
    db w' <> db w /\
    confirmDelete (uuids (draws w)) true q w'
    = (Ok answer, mkWorld (db w) (S (ticks w)) (S (draws w))).
Proof.
  intros Hitem Hfree. rewrite (logForm_submit_run form w Hitem), Hfree.
  eexists _, _. split; [reflexivity|]. cbn [db]. split.
  - intros E. apply (f_equal (@List.length obj)) in E.
    rewrite store_insert_length in E. lia.
  - rewrite confirmDelete_run. cbn [db ticks draws].
    rewrite store_delete_insert; [reflexivity | reflexivity | exact Hfree].
Qed.

Lemma logForm_submit_then_delete_witness :
  trim (f_item (mkFields "Hammer" "" "" "" "")) <> "" /\
  store_get (KStr (uuids (draws sample_world))) (db sample_world) = None /\
  exists w' answer,
    logForm_submit (mkFields "Hammer" "" "" "" "") sample_world = (Ok Yeeted, w') /\
    db w' <> db sample_world /\
    confirmDelete (uuids (draws sample_world)) true "" w'
    = (Ok answer,
       mkWorld (db sample_world) (S (ticks sample_world)) (S (draws sample_world))).
Proof.
  split; [discriminate|]. split; [reflexivity|].
  apply (logForm_submit_then_delete (host := sample_host));
    [discriminate | reflexivity].
Defined.
